(** * CFL-reachability points-to solver (Assignment-4-CFLR/CFLR.cpp)

    A shallow embedding of [CFLR::solve] and of the graph and worklist
    it drives, followed by the properties of the solver: closure under
    the grammar, symmetry of PT/Copy, monotone growth, termination,
    the push-once discipline of the worklist and order independence.

    The adjacency maps and node sets of the source are stdpp's [gmap] and
    [gset]; the solver state
    is passed explicitly; the [while] loop is iterated a bounded number of
    times, and the bound is shown to let the loop run to its exit. *)

From stdpp Require Import gmap list fin_maps fin_sets.

(** ** Data model *)

(** Modelled from the spec: the enumeration [EdgeLabel] is declared in
    A4Header.h, which is not among the sources; its members are the ten
    labels of the spec's data model. *)
Inductive EdgeLabel : Set :=
  | Addr | AddrBar | Copy | CopyBar | Store | Load | PT | PTBar | PV | VP.

#[global] Instance EdgeLabel_eq_dec : EqDecision EdgeLabel.
Proof. solve_decision. Defined.

Definition EdgeLabel_to_nat (l : EdgeLabel) : nat :=
  match l with
  | Addr => 0 | AddrBar => 1 | Copy => 2 | CopyBar => 3 | Store => 4
  | Load => 5 | PT => 6 | PTBar => 7 | PV => 8 | VP => 9
  end.

Definition EdgeLabel_of_nat (n : nat) : option EdgeLabel :=
  match n with
  | 0 => Some Addr | 1 => Some AddrBar | 2 => Some Copy | 3 => Some CopyBar
  | 4 => Some Store | 5 => Some Load | 6 => Some PT | 7 => Some PTBar
  | 8 => Some PV | 9 => Some VP | _ => None
  end.

#[global] Instance EdgeLabel_countable : Countable EdgeLabel.
Proof.
  apply (inj_countable EdgeLabel_to_nat EdgeLabel_of_nat).
  by intros [].
Defined.

Definition all_labels : list EdgeLabel :=
  [Addr; AddrBar; Copy; CopyBar; Store; Load; PT; PTBar; PV; VP].

(** [CFLREdge(src, dst, label)]; node identifiers are [unsigned] in the
    source and are never computed with, hence [nat]. *)
Record CFLREdge : Set := mkEdge { src : nat; dst : nat; label : EdgeLabel }.

#[global] Instance CFLREdge_eq_dec : EqDecision CFLREdge.
Proof. solve_decision. Defined.

#[global] Instance CFLREdge_countable : Countable CFLREdge.
Proof.
  apply (inj_countable' (λ e, (src e, dst e, label e))
                        (λ t, mkEdge t.1.1 t.1.2 t.2)).
  by intros [].
Defined.

(** ** The labelled graph *)

Module CFLRGraph.

(** Modelled from the spec: class [CFLRGraph] (A4Header.h) is not among
    the sources.  It is the dual index of the spec: a forward and a
    reverse adjacency map, both keyed by node, then by label. *)
Record t : Type := mk {
  succMap : gmap nat (gmap EdgeLabel (gset nat));
  predMap : gmap nat (gmap EdgeLabel (gset nat))
}.

Definition empty : t := mk ∅ ∅.

Definition getSuccessorMap (g : t) := succMap g.
Definition getPredecessorMap (g : t) := predMap g.

(** [m[u][l]] read without inserting: the empty set when a key is absent. *)
Definition at2 (m : gmap nat (gmap EdgeLabel (gset nat)))
    (u : nat) (l : EdgeLabel) : gset nat :=
  match m !! u with
  | Some inner => match inner !! l with Some s => s | None => ∅ end
  | None => ∅
  end.

(** [m[u][l].insert(v)] *)
Definition insert2 (m : gmap nat (gmap EdgeLabel (gset nat)))
    (u : nat) (l : EdgeLabel) (v : nat) :=
  let inner := match m !! u with Some i => i | None => ∅ end in
  <[u := <[l := {[v]} ∪ at2 m u l]> inner]> m.

(** Modelled from the spec: [hasEdge(u, v, l)] is the membership test. *)
Definition hasEdge (g : t) (u v : nat) (l : EdgeLabel) : bool :=
  bool_decide (v ∈ at2 (succMap g) u l).

(** Modelled from the spec: [addEdge(u, v, l)] inserts into the forward
    and into the reverse index. *)
Definition addEdge (g : t) (u v : nat) (l : EdgeLabel) : t :=
  mk (insert2 (succMap g) u l v) (insert2 (predMap g) v l u).

(** The two indices describe the same edge set. *)
Definition wf (g : t) : Prop :=
  ∀ u v l, v ∈ at2 (succMap g) u l ↔ u ∈ at2 (predMap g) v l.

(** The enumeration of the seed loop of [solve]: three nested loops over
    the forward index. *)
Definition allEdges (g : t) : list CFLREdge :=
  '(u, inner) ← map_to_list (succMap g);
  '(l, s) ← map_to_list inner;
  v ← elements s;
  [mkEdge u v l].

Definition of_list (es : list CFLREdge) : t :=
  foldl (λ g e, addEdge g (src e) (dst e) (label e)) empty es.

(** The graph read through its reverse index. *)
Definition transpose (g : t) : t := mk (predMap g) (succMap g).

End CFLRGraph.

(** The edge set of a graph, as a predicate and as a finite set. *)
Definition has (g : CFLRGraph.t) (e : CFLREdge) : Prop :=
  CFLRGraph.hasEdge g (src e) (dst e) (label e) = true.

#[global] Instance has_dec g e : Decision (has g e).
Proof. unfold has. apply _. Defined.

Definition edges (g : CFLRGraph.t) : gset CFLREdge :=
  list_to_set (CFLRGraph.allEdges g).

(** ** The worklist *)

Module CFLRWorkList.

(** The two fair disciplines the spec allows. *)
Inductive Order : Set := FIFO | LIFO.

(** Modelled from the spec: class [CFLRWorkList] (A4Header.h) is not
    among the sources.  [data] is the queue.  [pushed] is a ghost log of
    every argument [push] ever received, most recent first; no operation
    reads it, it only lets theorems speak about the history of pushes. *)
Record t : Type := mk { data : list CFLREdge; pushed : list CFLREdge }.

Definition new : t := mk [] [].

Definition push (o : Order) (w : t) (e : CFLREdge) : t :=
  mk (match o with FIFO => data w ++ [e] | LIFO => e :: data w end)
     (e :: pushed w).

Definition empty (w : t) : bool :=
  match data w with [] => true | _ :: _ => false end.

Definition pop (w : t) : option (CFLREdge * t) :=
  match data w with
  | [] => None
  | e :: rest => Some (e, mk rest (pushed w))
  end.

End CFLRWorkList.

(** ** The solver *)

(** The members of class [CFLR] that [solve] uses. *)
Record CFLR : Type := mkCFLR {
  graph : CFLRGraph.t;
  workList : CFLRWorkList.t
}.

Section Solver.

Variable order : CFLRWorkList.Order.

(** [graph->addEdge(u, v, label); workList.push(CFLREdge(u, v, label));] *)
Definition insert_and_push (st : CFLR) (u v : nat) (l : EdgeLabel) : CFLR :=
  mkCFLR (CFLRGraph.addEdge (graph st) u v l)
         (CFLRWorkList.push order (workList st) (mkEdge u v l)).

(** The lambda [addEdge] of [solve]. *)
Definition addEdge (st : CFLR) (u v : nat) (label : EdgeLabel) : CFLR :=
  if negb (CFLRGraph.hasEdge (graph st) u v label) then
    let st := insert_and_push st u v label in
    if decide (label = PT) then
      if negb (CFLRGraph.hasEdge (graph st) v u PTBar)
      then insert_and_push st v u PTBar
      else st
    else if decide (label = Copy) then
      if negb (CFLRGraph.hasEdge (graph st) v u CopyBar)
      then insert_and_push st v u CopyBar
      else st
    else st
  else st.

(** Step 1 of [solve]: every edge of the forward index is pushed; the
    worklist of a freshly constructed solver is empty. *)
Definition seed (g : CFLRGraph.t) : CFLR :=
  mkCFLR g (foldl (CFLRWorkList.push order) CFLRWorkList.new
                  (CFLRGraph.allEdges g)).

(** [for (unsigned w : s) body]: the loop runs over the members of [s];
    none of the loops of [solve] inserts into the set it iterates
    (lemmas [matchRight_iterated_set] and [matchLeft_iterated_set]). *)
Definition for_each (s : gset nat) (body : CFLR → nat → CFLR)
    (st : CFLR) : CFLR :=
  foldl body st (elements s).

(** [if (m.count(l)) for (unsigned w : m[l]) body] *)
Definition for_each_at (m : gmap EdgeLabel (gset nat)) (l : EdgeLabel)
    (body : CFLR → nat → CFLR) (st : CFLR) : CFLR :=
  match m !! l with
  | Some s => for_each s body st
  | None => st
  end.

(** Case A of the loop body: the popped edge is the left operand. *)
Definition matchRight (st : CFLR) (u v : nat) (lbl : EdgeLabel) : CFLR :=
  match CFLRGraph.getSuccessorMap (graph st) !! v with
  | Some succs =>
      if decide (lbl = CopyBar) then
        for_each_at succs PT (λ st w, addEdge st u w PT) st
      else if decide (lbl = Store) then
        for_each_at succs PT (λ st w, addEdge st u w PV) st
      else if decide (lbl = PTBar) then
        for_each_at succs Load (λ st w, addEdge st u w VP) st
      else if decide (lbl = PV) then
        for_each_at succs VP (λ st w, addEdge st u w Copy) st
      else st
  | None => st
  end.

(** Case B of the loop body: the popped edge is the right operand.
    [preds] is a reference into the live reverse index, so the second
    test under [lbl == PT] reads the index as the first loop left it. *)
Definition matchLeft (st : CFLR) (u v : nat) (lbl : EdgeLabel) : CFLR :=
  match CFLRGraph.getPredecessorMap (graph st) !! u with
  | Some preds =>
      if decide (lbl = PT) then
        let st := for_each_at preds CopyBar (λ st w, addEdge st w v PT) st in
        match CFLRGraph.getPredecessorMap (graph st) !! u with
        | Some preds =>
            for_each_at preds Store (λ st w, addEdge st w v PV) st
        | None => st
        end
      else if decide (lbl = Load) then
        for_each_at preds PTBar (λ st w, addEdge st w v VP) st
      else if decide (lbl = VP) then
        for_each_at preds PV (λ st w, addEdge st w v Copy) st
      else st
  | None => st
  end.

(** The body of the [while] loop, after the pop. *)
Definition loop_body (st : CFLR) (edge : CFLREdge) : CFLR :=
  let u := src edge in
  let v := dst edge in
  let lbl := label edge in
  let st := if decide (lbl = AddrBar) then addEdge st u v PT else st in
  let st := matchRight st u v lbl in
  matchLeft st u v lbl.

(** One iteration of [while (!workList.empty())]; [None] when the
    worklist is empty and the loop exits. *)
Definition step (st : CFLR) : option CFLR :=
  if CFLRWorkList.empty (workList st) then None
  else
    match CFLRWorkList.pop (workList st) with
    | Some (edge, wl) => Some (loop_body (mkCFLR (graph st) wl) edge)
    | None => None
    end.

(** At most [n] iterations of the loop. *)
Fixpoint iterate (n : nat) (st : CFLR) : CFLR :=
  match n with
  | 0 => st
  | S n' =>
      match step st with
      | Some st' => iterate n' st'
      | None => st
      end
  end.

(** The state of [solve] after [n] iterations of the main loop. *)
Definition solve_upto (n : nat) (g : CFLRGraph.t) : CFLR :=
  iterate n (seed g).

(** The nodes of the graph (those of either index) and the size of the
    edge universe over them, |V| * |V| * |Labels|: no run of the loop pops
    more often. *)
Definition endpoints (es : list CFLREdge) : gset nat :=
  list_to_set (src <$> es) ∪ list_to_set (dst <$> es).

Definition nodes (g : CFLRGraph.t) : gset nat :=
  endpoints (CFLRGraph.allEdges g)
  ∪ endpoints (CFLRGraph.allEdges (CFLRGraph.transpose g)).

Definition universe_size (g : CFLRGraph.t) : nat :=
  size (nodes g) * size (nodes g) * length all_labels.

(** [CFLR::solve]: the loop runs until the worklist is empty, which
    takes at most [universe_size g] iterations (section Termination). *)
Definition solve (g : CFLRGraph.t) : CFLR :=
  solve_upto (universe_size g) g.

End Solver.

(** ** The grammar and the specification of the fixpoint *)

(** The binary productions [l1 . l2 -> l3] of the grammar, as the spec
    and the comment "Grammar Rules implemented" of [solve] list them; the
    loop body does not consult this table, it spells the rules out. *)
Definition production (l1 l2 : EdgeLabel) : option EdgeLabel :=
  match l1, l2 with
  | CopyBar, PT => Some PT
  | Store, PT => Some PV
  | PTBar, Load => Some VP
  | PV, VP => Some Copy
  | _, _ => None
  end.

(** The labels with a bar twin that the symmetry rule speaks of. *)
Definition inverse (l : EdgeLabel) : option EdgeLabel :=
  match l with
  | PT => Some PTBar
  | Copy => Some CopyBar
  | _ => None
  end.

Definition terminal (l : EdgeLabel) : Prop :=
  l = Addr ∨ l = AddrBar ∨ l = Store ∨ l = Load.

Definition derived (l : EdgeLabel) : Prop :=
  l = PT ∨ l = PTBar ∨ l = Copy ∨ l = CopyBar ∨ l = PV ∨ l = VP.

(** Closure of an edge set under the grammar. *)
Definition grammar_closed (S : CFLREdge → Prop) : Prop :=
  (∀ u v, S (mkEdge u v AddrBar) → S (mkEdge u v PT)) ∧
  (∀ u v w l1 l2 l3, production l1 l2 = Some l3 →
     S (mkEdge u v l1) → S (mkEdge v w l2) → S (mkEdge u w l3)).

(** The symmetry rule of the solver: a PT edge comes with its PTBar
    twin and a Copy edge with its CopyBar twin. *)
Definition inverse_closed (S : CFLREdge → Prop) : Prop :=
  ∀ u v l l', inverse l = Some l' → S (mkEdge u v l) → S (mkEdge v u l').

(** The symmetry invariant of the spec, in both directions. *)
Definition symmetric (S : CFLREdge → Prop) : Prop :=
  ∀ u v l l', inverse l = Some l' → (S (mkEdge u v l) ↔ S (mkEdge v u l')).

(** [S] is the least edge set that contains [I], is closed under the
    grammar and under the symmetry rule. *)
Definition least_closed (I S : CFLREdge → Prop) : Prop :=
  (∀ e, I e → S e) ∧ grammar_closed S ∧ inverse_closed S ∧
  (∀ T : CFLREdge → Prop,
     (∀ e, I e → T e) → grammar_closed T → inverse_closed T →
     ∀ e, S e → T e).

(** What the solver derives from the initial edge set [I]: the
    conclusions of the productions, and the twin of every PT or Copy
    edge that is not an initial edge. *)
Inductive Derived (I : CFLREdge → Prop) : CFLREdge → Prop :=
  | Derived_init e : I e → Derived I e
  | Derived_unary u v :
      Derived I (mkEdge u v AddrBar) → Derived I (mkEdge u v PT)
  | Derived_binary u v w l1 l2 l3 :
      production l1 l2 = Some l3 →
      Derived I (mkEdge u v l1) → Derived I (mkEdge v w l2) →
      Derived I (mkEdge u w l3)
  | Derived_inverse u v l l' :
      inverse l = Some l' →
      Derived I (mkEdge u v l) → ¬ I (mkEdge u v l) →
      Derived I (mkEdge v u l').

(** The edges that one iteration of the main loop passes to [addEdge]
    when it has popped [e] and the graph is [g]. *)
Definition candidate (g : CFLRGraph.t) (e c : CFLREdge) : Prop :=
  (label e = AddrBar ∧ c = mkEdge (src e) (dst e) PT) ∨
  (∃ w l2 l3, production (label e) l2 = Some l3 ∧
     w ∈ CFLRGraph.at2 (CFLRGraph.succMap g) (dst e) l2 ∧
     c = mkEdge (src e) w l3) ∨
  (∃ w l1 l3, production l1 (label e) = Some l3 ∧
     w ∈ CFLRGraph.at2 (CFLRGraph.predMap g) (src e) l1 ∧
     c = mkEdge w (dst e) l3).

(** Both indices of [g'] extend those of [g]. *)
Definition grows (g g' : CFLRGraph.t) : Prop :=
  ∀ u l,
    CFLRGraph.at2 (CFLRGraph.succMap g) u l
      ⊆ CFLRGraph.at2 (CFLRGraph.succMap g') u l ∧
    CFLRGraph.at2 (CFLRGraph.predMap g) u l
      ⊆ CFLRGraph.at2 (CFLRGraph.predMap g') u l.

(** An edge of the graph that is no longer on the worklist. *)
Definition processed (st : CFLR) (e : CFLREdge) : Prop :=
  has (graph st) e ∧ e ∉ CFLRWorkList.data (workList st).

(** Every production whose operands are processed has its result in the
    graph; [skip] exempts the edge that is being processed. *)
Definition closed_on_processed (skip : CFLREdge → Prop) (st : CFLR) : Prop :=
  (∀ e, processed st e → ¬ skip e → label e = AddrBar →
     has (graph st) (mkEdge (src e) (dst e) PT)) ∧
  (∀ e1 e2 l3, processed st e1 → ¬ skip e1 → processed st e2 → ¬ skip e2 →
     dst e1 = src e2 → production (label e1) (label e2) = Some l3 →
     has (graph st) (mkEdge (src e1) (dst e2) l3)).

(** The worklist discipline: the log of pushes enumerates the edge set of
    the graph without repetition, and the queue holds edges of the graph. *)
Definition log_inv (st : CFLR) : Prop :=
  NoDup (CFLRWorkList.pushed (workList st)) ∧
  (∀ x, x ∈ CFLRWorkList.pushed (workList st) ↔ has (graph st) x) ∧
  (∀ x, x ∈ CFLRWorkList.data (workList st) → has (graph st) x).

(** What every call of the insertion helper preserves of the graph,
    relative to the initial graph [g0]. *)
Definition frame_inv (g0 g : CFLRGraph.t) : Prop :=
  grows g0 g ∧
  (∀ x, has g x → ¬ has g0 x → derived (label x)) ∧
  (∀ x l', has g x → ¬ has g0 x → inverse (label x) = Some l' →
     has g (mkEdge (dst x) (src x) l')) ∧
  (symmetric (has g0) → symmetric (has g)).

(** Every endpoint recorded in either index is a node of [V]. *)
Definition node_inv (V : gset nat) (g : CFLRGraph.t) : Prop :=
  ∀ u v l,
    (v ∈ CFLRGraph.at2 (CFLRGraph.succMap g) u l → u ∈ V ∧ v ∈ V) ∧
    (v ∈ CFLRGraph.at2 (CFLRGraph.predMap g) u l → u ∈ V ∧ v ∈ V).

(** The invariant of the main loop on a well-formed graph. *)
Definition loop_inv (g0 : CFLRGraph.t) (st : CFLR) : Prop :=
  CFLRGraph.wf (graph st) ∧
  (∀ x, has (graph st) x → Derived (has g0) x) ∧
  closed_on_processed (λ _, False) st.

(** Two solver states with the same graph and the same queue; they may
    differ in the ghost log only. *)
Definition same_run (st st' : CFLR) : Prop :=
  graph st = graph st' ∧
  CFLRWorkList.data (workList st) = CFLRWorkList.data (workList st').

(** The edge universe over the nodes of the initial graph. *)
Definition universe (V : gset nat) : list CFLREdge :=
  u ← elements V; v ← elements V; l ← all_labels; [mkEdge u v l].

(** ** Concrete graphs *)

(** Scenario S6 of the spec, with p = 0, o = 1, r = 2. *)
Definition S6_graph : CFLRGraph.t :=
  CFLRGraph.of_list [mkEdge 0 1 AddrBar; mkEdge 0 0 Store; mkEdge 0 2 Load].

(** Scenario S2: store and load through one object, with p = 0, q = 1,
    o = 2, x = 3, y = 4. *)
Definition S2_graph : CFLRGraph.t :=
  CFLRGraph.of_list
    [mkEdge 0 2 AddrBar; mkEdge 1 2 AddrBar; mkEdge 3 0 Store; mkEdge 1 4 Load].

(** Scenario S3: a chain of copies, with a = 0, b = 1, c = 2, obj = 3. *)
Definition S3_graph : CFLRGraph.t :=
  CFLRGraph.of_list
    [mkEdge 0 3 AddrBar; mkEdge 0 1 Copy; mkEdge 1 0 CopyBar;
     mkEdge 1 2 Copy; mkEdge 2 1 CopyBar].

(** Scenario S5: a cycle of copies, with p = 0, q = 1, o1 = 2, o2 = 3. *)
Definition S5_graph : CFLRGraph.t :=
  CFLRGraph.of_list
    [mkEdge 0 2 AddrBar; mkEdge 1 3 AddrBar; mkEdge 0 1 Copy;
     mkEdge 1 0 CopyBar; mkEdge 1 0 Copy; mkEdge 0 1 CopyBar].

(** Scenario S6 with an Addr edge besides. *)
Definition S6_graph_Addr : CFLRGraph.t :=
  CFLRGraph.of_list
    [mkEdge 1 0 Addr; mkEdge 0 1 AddrBar; mkEdge 0 0 Store; mkEdge 0 2 Load].

(** A single Copy edge without its CopyBar twin. *)
Definition lone_copy_graph : CFLRGraph.t :=
  CFLRGraph.of_list [mkEdge 0 1 Copy].

(** A graph that the class cannot build: the forward index holds
    Store(0, 1) and AddrBar(1, 2), the reverse index is empty. *)
Definition one_sided_graph : CFLRGraph.t :=
  CFLRGraph.mk
    (CFLRGraph.succMap
       (CFLRGraph.of_list [mkEdge 0 1 Store; mkEdge 1 2 AddrBar]))
    ∅.

(** ** The graph: membership, insertion, enumeration *)

Section GraphFacts.

Implicit Types (m : gmap nat (gmap EdgeLabel (gset nat))).
Implicit Types (g : CFLRGraph.t) (e : CFLREdge) (u v w : nat) (l : EdgeLabel).

Lemma at2_Some m u l inner s :
  m !! u = Some inner → inner !! l = Some s → CFLRGraph.at2 m u l = s.
Proof. intros Hu Hl. unfold CFLRGraph.at2. by rewrite Hu, Hl. Qed.

Lemma at2_elem m u l x :
  x ∈ CFLRGraph.at2 m u l ↔
  ∃ inner s, m !! u = Some inner ∧ inner !! l = Some s ∧ x ∈ s.
Proof.
  unfold CFLRGraph.at2. split.
  - destruct (m !! u) as [inner|] eqn:Hu; [|set_solver].
    destruct (inner !! l) as [s|] eqn:Hl; [|set_solver]. eauto.
  - intros (inner & s & -> & -> & ?). done.
Qed.

Lemma at2_insert2 m u l v u' l' :
  CFLRGraph.at2 (CFLRGraph.insert2 m u l v) u' l' =
  if decide (u = u' ∧ l = l') then {[v]} ∪ CFLRGraph.at2 m u l
  else CFLRGraph.at2 m u' l'.
Proof.
  unfold CFLRGraph.insert2. unfold CFLRGraph.at2 at 1.
  destruct (decide (u = u')) as [<-|Hu].
  - rewrite lookup_insert_eq. destruct (decide (l = l')) as [<-|Hl].
    + rewrite lookup_insert_eq. by rewrite decide_True.
    + rewrite lookup_insert_ne by done. rewrite decide_False by naive_solver.
      unfold CFLRGraph.at2. destruct (m !! u); [done|].
      by rewrite lookup_empty.
  - rewrite lookup_insert_ne by done. rewrite decide_False by naive_solver.
    done.
Qed.

Lemma at2_insert2_mono m u l v u' l' :
  CFLRGraph.at2 m u' l' ⊆ CFLRGraph.at2 (CFLRGraph.insert2 m u l v) u' l'.
Proof. rewrite at2_insert2. case_decide; [|done]. set_solver. Qed.

Lemma has_iff g e :
  has g e ↔ dst e ∈ CFLRGraph.at2 (CFLRGraph.succMap g) (src e) (label e).
Proof. unfold has, CFLRGraph.hasEdge. by rewrite bool_decide_eq_true. Qed.

Lemma hasEdge_false g u v l :
  CFLRGraph.hasEdge g u v l = false ↔ ¬ has g (mkEdge u v l).
Proof. unfold has. simpl. destruct (CFLRGraph.hasEdge g u v l); naive_solver. Qed.

Lemma has_addEdge g u v l e :
  has (CFLRGraph.addEdge g u v l) e ↔ e = mkEdge u v l ∨ has g e.
Proof.
  rewrite !has_iff. simpl. rewrite at2_insert2. destruct e as [a b c]. simpl.
  case_decide as H.
  - destruct H as [-> ->]. set_solver.
  - split; [auto|]. intros [[= -> -> ->]|?]; [|done]. naive_solver.
Qed.

Lemma elem_of_allEdges g e : e ∈ CFLRGraph.allEdges g ↔ has g e.
Proof.
  rewrite has_iff, at2_elem. unfold CFLRGraph.allEdges. split.
  - intros ([u inner] & He & Hu%elem_of_map_to_list)%list_elem_of_bind.
    apply list_elem_of_bind in He as ([l s] & He & Hl%elem_of_map_to_list).
    apply list_elem_of_bind in He as (v & He & Hv%elem_of_elements).
    apply list_elem_of_singleton in He as ->. simpl. eauto.
  - intros (inner & s & Hu & Hl & Hv).
    apply list_elem_of_bind. exists (src e, inner).
    split; [|by apply elem_of_map_to_list].
    apply list_elem_of_bind. exists (label e, s).
    split; [|by apply elem_of_map_to_list].
    apply list_elem_of_bind. exists (dst e).
    split; [|by apply elem_of_elements].
    destruct e. simpl. apply list_elem_of_singleton. done.
Qed.

Lemma NoDup_allEdges g : NoDup (CFLRGraph.allEdges g).
Proof.
  unfold CFLRGraph.allEdges. apply NoDup_bind.
  - intros [u1 i1] [u2 i2] e H1%elem_of_map_to_list H2%elem_of_map_to_list.
    intros ([l1 s1] & He1 & _)%list_elem_of_bind.
    intros ([l2 s2] & He2 & _)%list_elem_of_bind.
    apply list_elem_of_bind in He1 as (v1 & ->%list_elem_of_singleton & _).
    apply list_elem_of_bind in He2 as (v2 & [= -> _ _]%list_elem_of_singleton & _).
    congruence.
  - intros [u inner] _. apply NoDup_bind.
    + intros [l1 s1] [l2 s2] e H1%elem_of_map_to_list H2%elem_of_map_to_list.
      intros (v1 & ->%list_elem_of_singleton & _)%list_elem_of_bind.
      intros (v2 & [= _ ->]%list_elem_of_singleton & _)%list_elem_of_bind.
      congruence.
    + intros [l s] _. apply NoDup_bind.
      * intros v1 v2 e _ _ ->%list_elem_of_singleton [= ->]%list_elem_of_singleton.
        done.
      * intros. apply NoDup_singleton.
      * apply NoDup_elements.
    + apply NoDup_map_to_list.
  - apply NoDup_map_to_list.
Qed.

Lemma elem_of_edges g e : e ∈ edges g ↔ has g e.
Proof. unfold edges. by rewrite elem_of_list_to_set, elem_of_allEdges. Qed.

Lemma edges_addEdge g u v l :
  edges (CFLRGraph.addEdge g u v l) = {[mkEdge u v l]} ∪ edges g.
Proof.
  apply set_eq. intros e.
  rewrite elem_of_union, elem_of_singleton, !elem_of_edges.
  apply has_addEdge.
Qed.

Lemma size_edges g : size (edges g) = length (CFLRGraph.allEdges g).
Proof. apply size_list_to_set, NoDup_allEdges. Qed.

Lemma wf_empty : CFLRGraph.wf CFLRGraph.empty.
Proof. intros u v l. simpl. unfold CFLRGraph.at2. by rewrite !lookup_empty. Qed.

Lemma wf_addEdge g u v l :
  CFLRGraph.wf g → CFLRGraph.wf (CFLRGraph.addEdge g u v l).
Proof.
  intros Hwf a b c. simpl. rewrite !at2_insert2.
  specialize (Hwf a b c).
  repeat case_decide; set_solver.
Qed.

Lemma wf_of_list es : CFLRGraph.wf (CFLRGraph.of_list es).
Proof.
  unfold CFLRGraph.of_list. generalize wf_empty.
  generalize CFLRGraph.empty. induction es as [|e es IH]; simpl; [done|].
  intros g Hg. by apply IH, wf_addEdge.
Qed.

Lemma has_of_list es e : has (CFLRGraph.of_list es) e ↔ e ∈ es.
Proof.
  unfold CFLRGraph.of_list.
  assert (∀ g, has (foldl (λ g e, CFLRGraph.addEdge g (src e) (dst e) (label e)) g es) e
               ↔ e ∈ es ∨ has g e) as H.
  { induction es as [|x es IH]; intros g; simpl.
    - rewrite elem_of_nil. naive_solver.
    - rewrite IH, has_addEdge, elem_of_cons. destruct x; simpl. naive_solver. }
  rewrite H, has_iff. simpl. unfold CFLRGraph.at2. rewrite lookup_empty.
  set_solver.
Qed.

End GraphFacts.

(** ** The insertion helper and the loop body *)

Section SolverFacts.

Variable order : CFLRWorkList.Order.
Implicit Types (st : CFLR) (g : CFLRGraph.t) (e c x : CFLREdge).
Implicit Types (u v w : nat) (l : EdgeLabel).

Lemma elem_of_data_push (wl : CFLRWorkList.t) e x :
  x ∈ CFLRWorkList.data (CFLRWorkList.push order wl e)
  ↔ x = e ∨ x ∈ CFLRWorkList.data wl.
Proof.
  destruct order; simpl.
  - rewrite elem_of_app, list_elem_of_singleton. tauto.
  - apply elem_of_cons.
Qed.

Lemma length_data_push (wl : CFLRWorkList.t) e :
  length (CFLRWorkList.data (CFLRWorkList.push order wl e))
  = S (length (CFLRWorkList.data wl)).
Proof. destruct order; simpl; [|done]. rewrite length_app. simpl. lia. Qed.

Lemma inverse_neq l l' : inverse l = Some l' → l' ≠ l.
Proof. destruct l; simpl; congruence. Qed.

Lemma inverse_no_inverse l l' : inverse l = Some l' → inverse l' = None.
Proof. destruct l; simpl; intros [= <-]; done. Qed.

Lemma inverse_cases l l' :
  inverse l = Some l' → (l = PT ∧ l' = PTBar) ∨ (l = Copy ∧ l' = CopyBar).
Proof. destruct l; simpl; intros [= <-]; tauto. Qed.

(** The three ways a call of [addEdge] can go. *)
Lemma addEdge_cases st u v l :
  (has (graph st) (mkEdge u v l) ∧ addEdge order st u v l = st) ∨
  (¬ has (graph st) (mkEdge u v l) ∧
   (∀ l', inverse l = Some l' → has (graph st) (mkEdge v u l')) ∧
   addEdge order st u v l = insert_and_push order st u v l) ∨
  (∃ l', ¬ has (graph st) (mkEdge u v l) ∧ inverse l = Some l' ∧
     ¬ has (graph st) (mkEdge v u l') ∧
     addEdge order st u v l
     = insert_and_push order (insert_and_push order st u v l) v u l').
Proof.
  unfold addEdge.
  destruct (CFLRGraph.hasEdge (graph st) u v l) eqn:Hc; simpl; [by left|].
  right. apply hasEdge_false in Hc.
  assert (∀ l', l' ≠ l →
    CFLRGraph.hasEdge (CFLRGraph.addEdge (graph st) u v l) v u l' = true
    ↔ has (graph st) (mkEdge v u l')) as Hinv.
  { intros l' Hne.
    change (has (CFLRGraph.addEdge (graph st) u v l) (mkEdge v u l')
            ↔ has (graph st) (mkEdge v u l')).
    rewrite has_addEdge. naive_solver. }
  destruct (decide (l = PT)) as [->|HPT].
  { destruct (CFLRGraph.hasEdge _ v u PTBar) eqn:Hb; simpl.
    - left. split_and!; [done| |done]. intros l' [= <-]. by apply Hinv.
    - right. exists PTBar. split_and!; [done..| |done].
      rewrite <- Hinv by done. unfold has. simpl. congruence. }
  destruct (decide (l = Copy)) as [->|HCopy].
  { destruct (CFLRGraph.hasEdge _ v u CopyBar) eqn:Hb; simpl.
    - left. split_and!; [done| |done]. intros l' [= <-]. by apply Hinv.
    - right. exists CopyBar. split_and!; [done..| |done].
      rewrite <- Hinv by done. unfold has. simpl. congruence. }
  left. split_and!; [done| |done]. intros l'. destruct l; simpl; congruence.
Qed.

(** *** Growth *)

Lemma grows_refl g : grows g g.
Proof. intros u l. done. Qed.

Lemma grows_trans g1 g2 g3 : grows g1 g2 → grows g2 g3 → grows g1 g3.
Proof. intros H1 H2 u l. destruct (H1 u l), (H2 u l). set_solver. Qed.

Lemma grows_graph_addEdge g u v l : grows g (CFLRGraph.addEdge g u v l).
Proof. intros a b. simpl. split; apply at2_insert2_mono. Qed.

Lemma grows_has g g' e : grows g g' → has g e → has g' e.
Proof. rewrite !has_iff. intros H. destruct (H (src e) (label e)). set_solver. Qed.

Lemma grows_addEdge st u v l : grows (graph st) (graph (addEdge order st u v l)).
Proof.
  destruct (addEdge_cases st u v l) as [[_ ->]|[(_ & _ & ->)|(l' & _ & _ & _ & ->)]].
  - apply grows_refl.
  - apply grows_graph_addEdge.
  - eapply grows_trans; apply grows_graph_addEdge.
Qed.

Lemma has_addEdge_self st u v l : has (graph (addEdge order st u v l)) (mkEdge u v l).
Proof.
  destruct (addEdge_cases st u v l) as [[? ->]|[(_ & _ & ->)|(l' & _ & _ & _ & ->)]].
  - done.
  - simpl. apply has_addEdge. by left.
  - simpl. rewrite !has_addEdge. auto.
Qed.

(** *** Induction over the calls of [addEdge] in a loop *)

Lemma for_each_ind (Φ : CFLR → Prop) (s : gset nat)
    (f1 f2 : nat → nat) l st :
  Φ st →
  (∀ st' w, Φ st' → w ∈ s → Φ (addEdge order st' (f1 w) (f2 w) l)) →
  Φ (for_each s (λ st w, addEdge order st (f1 w) (f2 w) l) st).
Proof.
  intros H0 Hstep. unfold for_each.
  assert (∀ w, w ∈ elements s → w ∈ s) as Hin by (intros ?; apply elem_of_elements).
  revert st H0 Hin. induction (elements s) as [|w ws IH]; intros st H0 Hin; simpl.
  - done.
  - apply IH.
    + apply Hstep; [done|]. apply Hin. by left.
    + intros ??. apply Hin. by right.
Qed.

Lemma for_each_at_ind (Φ : CFLR → Prop) (m : gmap EdgeLabel (gset nat))
    k (f1 f2 : nat → nat) l st :
  Φ st →
  (∀ st' s w, Φ st' → m !! k = Some s → w ∈ s →
     Φ (addEdge order st' (f1 w) (f2 w) l)) →
  Φ (for_each_at m k (λ st w, addEdge order st (f1 w) (f2 w) l) st).
Proof.
  intros H0 Hstep. unfold for_each_at. destruct (m !! k) as [s|] eqn:Hk; [|done].
  apply for_each_ind; [done|]. intros st' w ? ?. by eapply Hstep.
Qed.

Lemma for_each_covers (s : gset nat) (f1 f2 : nat → nat) l st w :
  w ∈ s →
  has (graph (for_each s (λ st w, addEdge order st (f1 w) (f2 w) l) st))
      (mkEdge (f1 w) (f2 w) l).
Proof.
  intros Hw%elem_of_elements. unfold for_each.
  revert st. induction (elements s) as [|a ws IH]; intros st; [by inv Hw|].
  simpl. apply elem_of_cons in Hw as [<-|Hw]; [|by apply IH].
  clear IH. generalize (has_addEdge_self st (f1 w) (f2 w) l).
  generalize (addEdge order st (f1 w) (f2 w) l). clear st.
  induction ws as [|b ws IH]; intros st Hst; simpl; [done|].
  apply IH. eapply grows_has; [apply grows_addEdge|done].
Qed.

Lemma production_cases l1 l2 l3 :
  production l1 l2 = Some l3 →
  (l1 = CopyBar ∧ l2 = PT ∧ l3 = PT) ∨ (l1 = Store ∧ l2 = PT ∧ l3 = PV) ∨
  (l1 = PTBar ∧ l2 = Load ∧ l3 = VP) ∨ (l1 = PV ∧ l2 = VP ∧ l3 = Copy).
Proof. destruct l1, l2; simpl; intros [= <-]; tauto. Qed.

Lemma candidate_label g e c :
  candidate g e c →
  label c = PT ∨ label c = PV ∨ label c = VP ∨ label c = Copy.
Proof.
  intros [[_ ->]|[(w & l2 & l3 & Hp & _ & ->)|(w & l1 & l3 & Hp & _ & ->)]];
    simpl; [tauto| |];
    apply production_cases in Hp; naive_solver.
Qed.

(** *** Induction over the calls of [addEdge] in the loop body *)

Section BodyInduction.

Variables (Φ : CFLR → Prop) (st0 : CFLR) (e : CFLREdge).

Let Ψ (st : CFLR) : Prop := grows (graph st0) (graph st) ∧ Φ st.

Hypothesis Hstep : ∀ st c,
  grows (graph st0) (graph st) → Φ st → candidate (graph st) e c →
  Φ (addEdge order st (src c) (dst c) (label c)).

Lemma body_step st c :
  Ψ st → candidate (graph st) e c →
  Ψ (addEdge order st (src c) (dst c) (label c)).
Proof using Hstep.
  intros [Hg HΦ] Hc. split; [|by apply Hstep].
  eapply grows_trans; [done|apply grows_addEdge].
Qed.

Lemma right_loop_ind st succs l2 l3 :
  Ψ st → CFLRGraph.succMap (graph st) !! dst e = Some succs →
  production (label e) l2 = Some l3 →
  Ψ (for_each_at succs l2 (λ st w, addEdge order st (src e) w l3) st).
Proof using Hstep.
  intros HΨ Hsuccs Hp.
  cut (grows (graph st)
         (graph (for_each_at succs l2 (λ st w, addEdge order st (src e) w l3) st))
       ∧ Ψ (for_each_at succs l2 (λ st w, addEdge order st (src e) w l3) st));
    [tauto|].
  apply (for_each_at_ind (λ st', grows (graph st) (graph st') ∧ Ψ st')
           succs l2 (λ _, src e) (λ w, w) l3).
  { split; [apply grows_refl|done]. }
  intros st' s w [Hg HΨ'] Hs Hw. split.
  { eapply grows_trans; [done|apply grows_addEdge]. }
  apply (body_step st' (mkEdge (src e) w l3)); [done|].
  right; left. exists w, l2, l3. split_and!; [done| |done].
  apply (proj1 (Hg (dst e) l2)). by rewrite (at2_Some _ _ _ _ _ Hsuccs Hs).
Qed.

Lemma left_loop_ind st preds l1 l3 :
  Ψ st → CFLRGraph.predMap (graph st) !! src e = Some preds →
  production l1 (label e) = Some l3 →
  Ψ (for_each_at preds l1 (λ st w, addEdge order st w (dst e) l3) st).
Proof using Hstep.
  intros HΨ Hpreds Hp.
  cut (grows (graph st)
         (graph (for_each_at preds l1 (λ st w, addEdge order st w (dst e) l3) st))
       ∧ Ψ (for_each_at preds l1 (λ st w, addEdge order st w (dst e) l3) st));
    [tauto|].
  apply (for_each_at_ind (λ st', grows (graph st) (graph st') ∧ Ψ st')
           preds l1 (λ w, w) (λ _, dst e) l3).
  { split; [apply grows_refl|done]. }
  intros st' s w [Hg HΨ'] Hs Hw. split.
  { eapply grows_trans; [done|apply grows_addEdge]. }
  apply (body_step st' (mkEdge w (dst e) l3)); [done|].
  right; right. exists w, l1, l3. split_and!; [done| |done].
  apply (proj2 (Hg (src e) l1)). by rewrite (at2_Some _ _ _ _ _ Hpreds Hs).
Qed.

Lemma matchRight_ind st :
  Ψ st → Ψ (matchRight order st (src e) (dst e) (label e)).
Proof using Hstep.
  intros HΨ. unfold matchRight, CFLRGraph.getSuccessorMap.
  destruct (CFLRGraph.succMap (graph st) !! dst e) as [succs|] eqn:Hs; [|done].
  repeat case_decide; try done;
    apply right_loop_ind; try done;
    match goal with H : label e = _ |- _ => by rewrite H end.
Qed.

Lemma matchLeft_ind st :
  Ψ st → Ψ (matchLeft order st (src e) (dst e) (label e)).
Proof using Hstep.
  intros HΨ. unfold matchLeft, CFLRGraph.getPredecessorMap.
  destruct (CFLRGraph.predMap (graph st) !! src e) as [preds|] eqn:Hs; [|done].
  case_decide as HPT.
  { match goal with |- Ψ (match CFLRGraph.predMap (graph ?s) !! _ with _ => _ end) =>
      assert (Ψ s) as HΨ1 by (apply left_loop_ind; [done..|by rewrite HPT]);
      destruct (CFLRGraph.predMap (graph s) !! src e) as [preds1|] eqn:Hs1; [|done]
    end.
    apply left_loop_ind; [done..|by rewrite HPT]. }
  repeat case_decide; try done;
    apply left_loop_ind; try done;
    match goal with H : label e = _ |- _ => by rewrite H end.
Qed.

Lemma loop_body_ind :
  Φ st0 →
  grows (graph st0) (graph (loop_body order st0 e)) ∧ Φ (loop_body order st0 e).
Proof using Hstep.
  intros H0. unfold loop_body.
  apply matchLeft_ind, matchRight_ind.
  assert (Ψ st0) as HΨ0 by (split; [apply grows_refl|done]).
  case_decide as HA; [|done].
  apply (body_step st0 (mkEdge (src e) (dst e) PT)); [done|]. by left.
Qed.

End BodyInduction.

(** *** The loop body only adds, and adds every candidate *)

Lemma grows_for_each_at (m : gmap EdgeLabel (gset nat)) k (f1 f2 : nat → nat) l st :
  grows (graph st)
    (graph (for_each_at m k (λ st w, addEdge order st (f1 w) (f2 w) l) st)).
Proof.
  apply (for_each_at_ind (λ st', grows (graph st) (graph st'))).
  - apply grows_refl.
  - intros st' _ w Hg _ _. eapply grows_trans; [done|apply grows_addEdge].
Qed.

Lemma grows_matchRight st u v lbl :
  grows (graph st) (graph (matchRight order st u v lbl)).
Proof.
  apply (matchRight_ind (λ _, True) st (mkEdge u v lbl)); [done|].
  split; [apply grows_refl|done].
Qed.

Lemma grows_matchLeft st u v lbl :
  grows (graph st) (graph (matchLeft order st u v lbl)).
Proof.
  apply (matchLeft_ind (λ _, True) st (mkEdge u v lbl)); [done|].
  split; [apply grows_refl|done].
Qed.

Lemma grows_loop_body st e : grows (graph st) (graph (loop_body order st e)).
Proof. by apply (loop_body_ind (λ _, True) st e). Qed.

Lemma for_each_at_covers (m : gmap EdgeLabel (gset nat)) k s
    (f1 f2 : nat → nat) l st w :
  m !! k = Some s → w ∈ s →
  has (graph (for_each_at m k (λ st w, addEdge order st (f1 w) (f2 w) l) st))
      (mkEdge (f1 w) (f2 w) l).
Proof. intros Hk Hw. unfold for_each_at. rewrite Hk. by apply for_each_covers. Qed.

Lemma matchRight_covers st u v lbl w l2 l3 :
  production lbl l2 = Some l3 →
  w ∈ CFLRGraph.at2 (CFLRGraph.succMap (graph st)) v l2 →
  has (graph (matchRight order st u v lbl)) (mkEdge u w l3).
Proof.
  intros Hp (succs & s & Hv & Hl & Hw)%at2_elem.
  unfold matchRight, CFLRGraph.getSuccessorMap. rewrite Hv.
  apply production_cases in Hp as [(-> & -> & ->)|[(-> & -> & ->)|
    [(-> & -> & ->)|(-> & -> & ->)]]]; simpl;
    by apply (for_each_at_covers succs _ s (λ _, u) (λ w, w)).
Qed.

Lemma matchLeft_covers st u v lbl w l1 l3 :
  production l1 lbl = Some l3 →
  w ∈ CFLRGraph.at2 (CFLRGraph.predMap (graph st)) u l1 →
  has (graph (matchLeft order st u v lbl)) (mkEdge w v l3).
Proof.
  intros Hp Hw. pose proof Hw as (preds & s & Hu & Hl & Hs)%at2_elem.
  unfold matchLeft, CFLRGraph.getPredecessorMap. rewrite Hu.
  apply production_cases in Hp as [(-> & -> & ->)|[(-> & -> & ->)|
    [(-> & -> & ->)|(-> & -> & ->)]]]; simpl.
  - match goal with |- has (graph (match CFLRGraph.predMap (graph ?s1) !! _ with _ => _ end)) _ =>
      assert (has (graph s1) (mkEdge w v PT)) as H1
        by (by apply (for_each_at_covers preds _ s (λ w, w) (λ _, v)));
      destruct (CFLRGraph.predMap (graph s1) !! u); [|done]
    end.
    eapply grows_has; [|done].
    apply (grows_for_each_at _ Store (λ w, w) (λ _, v)).
  - match goal with |- has (graph (match CFLRGraph.predMap (graph ?s1) !! _ with _ => _ end)) _ =>
      assert (w ∈ CFLRGraph.at2 (CFLRGraph.predMap (graph s1)) u Store) as H1
    end.
    { eapply (proj2 (grows_for_each_at preds CopyBar (λ w, w) (λ _, v) PT st u Store)), Hw. }
    apply at2_elem in H1 as (preds1 & s1 & -> & Hl1 & Hs1).
    by apply (for_each_at_covers preds1 _ s1 (λ w, w) (λ _, v)).
  - by apply (for_each_at_covers preds _ s (λ w, w) (λ _, v)).
  - by apply (for_each_at_covers preds _ s (λ w, w) (λ _, v)).
Qed.

Lemma loop_body_complete st e c :
  candidate (graph st) e c → has (graph (loop_body order st e)) c.
Proof.
  unfold loop_body.
  intros [[HA ->]|[(w & l2 & l3 & Hp & Hw & ->)|(w & l1 & l3 & Hp & Hw & ->)]].
  - rewrite decide_True by done.
    eapply grows_has; [apply grows_matchLeft|].
    eapply grows_has; [apply grows_matchRight|].
    apply has_addEdge_self.
  - eapply grows_has; [apply grows_matchLeft|].
    eapply matchRight_covers; [done|].
    case_decide; [|done].
    by apply (proj1 (grows_addEdge st (src e) (dst e) PT (dst e) l2)).
  - eapply matchLeft_covers; [done|].
    apply (proj2 (grows_matchRight _ (src e) (dst e) (label e) (src e) l1)).
    case_decide; [|done].
    by apply (proj2 (grows_addEdge st (src e) (dst e) PT (src e) l1)).
Qed.

(** *** No loop inserts into the set it iterates *)

Lemma succ_addEdge_stable st a b k v l2 :
  (∀ l', inverse k = Some l' → l' ≠ l2) →
  (a = v → k = l2 → b ∈ CFLRGraph.at2 (CFLRGraph.succMap (graph st)) v l2) →
  CFLRGraph.at2 (CFLRGraph.succMap (graph (addEdge order st a b k))) v l2
  = CFLRGraph.at2 (CFLRGraph.succMap (graph st)) v l2.
Proof.
  intros Hinv Hin.
  destruct (addEdge_cases st a b k)
    as [[_ ->]|[(_ & _ & ->)|(l' & _ & Hi & _ & ->)]]; [done| |];
    unfold insert_and_push; cbn [graph CFLRGraph.addEdge CFLRGraph.succMap];
    rewrite !at2_insert2; repeat case_decide; try done;
    try (destruct_and!; subst; set_solver).
Qed.

Lemma pred_addEdge_stable st a b k u l1 :
  k ≠ l1 → (∀ l', inverse k = Some l' → l' ≠ l1) →
  CFLRGraph.at2 (CFLRGraph.predMap (graph (addEdge order st a b k))) u l1
  = CFLRGraph.at2 (CFLRGraph.predMap (graph st)) u l1.
Proof.
  intros Hk Hinv.
  destruct (addEdge_cases st a b k)
    as [[_ ->]|[(_ & _ & ->)|(l' & _ & Hi & _ & ->)]]; [done| |];
    unfold insert_and_push; cbn [graph CFLRGraph.addEdge CFLRGraph.predMap];
    rewrite !at2_insert2; repeat case_decide; try done;
    destruct_and?; subst; try done.
  all: by apply Hinv in Hi.
Qed.

(** The set [succs[l2]] that Case A runs over is the same set when the
    loop ends (and, the graph only growing, all the way through). *)
Lemma matchRight_iterated_set st u v lbl l2 l3 :
  production lbl l2 = Some l3 →
  CFLRGraph.at2 (CFLRGraph.succMap (graph (matchRight order st u v lbl))) v l2
  = CFLRGraph.at2 (CFLRGraph.succMap (graph st)) v l2.
Proof.
  intros Hp.
  apply (matchRight_ind
    (λ st', CFLRGraph.at2 (CFLRGraph.succMap (graph st')) v l2
            = CFLRGraph.at2 (CFLRGraph.succMap (graph st)) v l2)
    st (mkEdge u v lbl)); [|split; [apply grows_refl|done]].
  simpl. intros st' c _ IH Hc. rewrite <- IH.
  destruct Hc as [[HA ->]|[(w & k2 & k3 & Hp' & Hw & ->)|(w & k1 & k3 & Hp' & _ & ->)]];
    simpl in *.
  - subst lbl. by destruct l2.
  - apply succ_addEdge_stable.
    + intros l' Hi. apply inverse_cases in Hi.
      apply production_cases in Hp, Hp'. naive_solver.
    + intros -> ->. apply production_cases in Hp, Hp'.
      replace l2 with k2 by naive_solver. done.
  - apply production_cases in Hp, Hp'. naive_solver.
Qed.

(** Likewise for the sets [preds[l1]] that Case B runs over. *)
Lemma matchLeft_iterated_set st u v lbl l1 l3 :
  production l1 lbl = Some l3 →
  CFLRGraph.at2 (CFLRGraph.predMap (graph (matchLeft order st u v lbl))) u l1
  = CFLRGraph.at2 (CFLRGraph.predMap (graph st)) u l1.
Proof.
  intros Hp.
  apply (matchLeft_ind
    (λ st', CFLRGraph.at2 (CFLRGraph.predMap (graph st')) u l1
            = CFLRGraph.at2 (CFLRGraph.predMap (graph st)) u l1)
    st (mkEdge u v lbl)); [|split; [apply grows_refl|done]].
  simpl. intros st' c _ IH Hc. rewrite <- IH.
  destruct Hc as [[HA ->]|[(w & k2 & k3 & Hp' & _ & ->)|(w & k1 & k3 & Hp' & _ & ->)]];
    simpl in *.
  - subst lbl. by destruct l1.
  - apply production_cases in Hp, Hp'. naive_solver.
  - apply pred_addEdge_stable.
    + apply production_cases in Hp, Hp'. naive_solver.
    + intros l' Hi. apply inverse_cases in Hi.
      apply production_cases in Hp, Hp'. naive_solver.
Qed.

(** *** The ghost log is never read *)

Lemma same_run_refl st : same_run st st.
Proof. done. Qed.

Lemma same_run_insert_and_push st st' u v l :
  same_run st st' →
  same_run (insert_and_push order st u v l) (insert_and_push order st' u v l).
Proof.
  intros [Hg Hd]. unfold same_run, insert_and_push. cbn [graph workList].
  rewrite Hg. split; [done|]. unfold CFLRWorkList.push. simpl. by rewrite Hd.
Qed.

Lemma same_run_addEdge st st' u v l :
  same_run st st' → same_run (addEdge order st u v l) (addEdge order st' u v l).
Proof.
  intros Hs. pose proof Hs as [Hg _]. unfold addEdge.
  pose proof (same_run_insert_and_push st st' u v l Hs) as Hs1.
  pose proof Hs1 as [Hg1 _]. rewrite <- Hg, <- Hg1.
  repeat (case_match; try done); by apply same_run_insert_and_push.
Qed.

Lemma same_run_for_each (s : gset nat) (f1 f2 : nat → nat) l st st' :
  same_run st st' →
  same_run (for_each s (λ st w, addEdge order st (f1 w) (f2 w) l) st)
           (for_each s (λ st w, addEdge order st (f1 w) (f2 w) l) st').
Proof.
  unfold for_each. revert st st'.
  induction (elements s) as [|w ws IH]; intros st st' Hs; simpl; [done|].
  by apply IH, same_run_addEdge.
Qed.

Lemma same_run_for_each_at (m : gmap EdgeLabel (gset nat)) k
    (f1 f2 : nat → nat) l st st' :
  same_run st st' →
  same_run (for_each_at m k (λ st w, addEdge order st (f1 w) (f2 w) l) st)
           (for_each_at m k (λ st w, addEdge order st (f1 w) (f2 w) l) st').
Proof.
  intros Hs. unfold for_each_at. destruct (m !! k); [|done].
  by apply same_run_for_each.
Qed.

Lemma same_run_loop_body st st' e :
  same_run st st' → same_run (loop_body order st e) (loop_body order st' e).
Proof.
  intros Hs. unfold loop_body.
  assert (same_run
    (if decide (label e = AddrBar) then addEdge order st (src e) (dst e) PT else st)
    (if decide (label e = AddrBar) then addEdge order st' (src e) (dst e) PT else st'))
    as Hs1 by (case_decide; [by apply same_run_addEdge|done]).
  revert Hs1. generalize
    (if decide (label e = AddrBar) then addEdge order st (src e) (dst e) PT else st)
    (if decide (label e = AddrBar) then addEdge order st' (src e) (dst e) PT else st').
  clear st st' Hs. intros st st' Hs.
  assert (same_run (matchRight order st (src e) (dst e) (label e))
                   (matchRight order st' (src e) (dst e) (label e))) as Hs2.
  { unfold matchRight, CFLRGraph.getSuccessorMap. rewrite <- (proj1 Hs).
    destruct (CFLRGraph.succMap (graph st) !! dst e); [|done].
    repeat case_decide; try done;
      by apply (same_run_for_each_at _ _ (λ _, src e) (λ w, w)). }
  revert Hs2. generalize (matchRight order st (src e) (dst e) (label e))
    (matchRight order st' (src e) (dst e) (label e)).
  clear st st' Hs. intros st st' Hs.
  unfold matchLeft, CFLRGraph.getPredecessorMap. rewrite <- (proj1 Hs).
  destruct (CFLRGraph.predMap (graph st) !! src e) as [preds|]; [|done].
  case_decide.
  { pose proof (same_run_for_each_at preds CopyBar (λ w, w) (λ _, dst e) PT
                  st st' Hs) as Hs3.
    revert Hs3. simpl. generalize
      (for_each_at preds CopyBar (λ st w, addEdge order st w (dst e) PT) st)
      (for_each_at preds CopyBar (λ st w, addEdge order st w (dst e) PT) st').
    intros st1 st1' Hs3. rewrite <- (proj1 Hs3).
    destruct (CFLRGraph.predMap (graph st1) !! src e); [|done].
    by apply (same_run_for_each_at _ _ (λ w, w) (λ _, dst e)). }
  repeat case_decide; try done;
    by apply (same_run_for_each_at _ _ (λ w, w) (λ _, dst e)).
Qed.

Lemma same_run_step st st' :
  same_run st st' →
  match step order st, step order st' with
  | Some st1, Some st1' => same_run st1 st1'
  | None, None => True
  | _, _ => False
  end.
Proof.
  intros [Hg Hd]. unfold step, CFLRWorkList.empty, CFLRWorkList.pop.
  rewrite <- Hd, <- Hg.
  destruct (CFLRWorkList.data (workList st)); [done|].
  by apply same_run_loop_body.
Qed.

(** Whatever the log holds, the run goes through the same graphs and the
    same queues. *)
Lemma same_run_iterate n st st' :
  same_run st st' → same_run (iterate order n st) (iterate order n st').
Proof.
  revert st st'. induction n as [|n IH]; intros st st' Hs; simpl; [done|].
  pose proof (same_run_step st st' Hs) as H.
  destruct (step order st), (step order st'); try done. by apply IH.
Qed.

End SolverFacts.

(** ** Invariants of the run *)

(** Case split on a call of the insertion helper when the facts about
    the graph before the call are not needed: no insertion, one, or two. *)
Ltac addEdge_split o st u v l :=
  let l' := fresh "l'" in
  destruct (addEdge_cases o st u v l)
    as [[_ ->]|[(_ & _ & ->)|(l' & _ & _ & _ & ->)]];
  [|unfold insert_and_push; cbn [graph workList]..].

Section RunFacts.

Variable order : CFLRWorkList.Order.
Implicit Types (st : CFLR) (g : CFLRGraph.t) (e c x : CFLREdge).
Implicit Types (u v w : nat) (l : EdgeLabel).

Lemma step_Some st st' :
  step order st = Some st' →
  ∃ e rest,
    CFLRWorkList.data (workList st) = e :: rest ∧
    st' = loop_body order
            (mkCFLR (graph st)
               (CFLRWorkList.mk rest (CFLRWorkList.pushed (workList st)))) e.
Proof.
  unfold step, CFLRWorkList.empty, CFLRWorkList.pop.
  destruct (CFLRWorkList.data (workList st)) as [|e rest]; [done|].
  intros [= <-]. eauto.
Qed.

Lemma step_None st :
  step order st = None ↔ CFLRWorkList.data (workList st) = [].
Proof.
  unfold step, CFLRWorkList.empty, CFLRWorkList.pop.
  by destruct (CFLRWorkList.data (workList st)).
Qed.

Lemma iterate_ind (Φ : CFLR → Prop) n st :
  Φ st → (∀ st1 st2, Φ st1 → step order st1 = Some st2 → Φ st2) →
  Φ (iterate order n st).
Proof.
  intros H0 Hstep. revert st H0. induction n as [|n IH]; intros st H0; simpl; [done|].
  destruct (step order st) as [st'|] eqn:Hs; [|done]. eauto.
Qed.

Lemma iterate_S n st :
  iterate order (S n) st =
  match step order (iterate order n st) with
  | Some st' => st'
  | None => iterate order n st
  end.
Proof.
  revert st. induction n as [|n IH]; intros st.
  - simpl. by destruct (step order st).
  - change (iterate order (S (S n)) st)
      with (match step order st with
            | Some st' => iterate order (S n) st' | None => st end).
    change (iterate order (S n) st)
      with (match step order st with
            | Some st' => iterate order n st' | None => st end).
    destruct (step order st) as [st'|] eqn:Hs; [apply IH|by rewrite Hs].
Qed.

Lemma iterate_quiescent n st :
  step order st = None → iterate order n st = st.
Proof. intros H. destruct n; simpl; [done|]. by rewrite H. Qed.

(** *** The seed loop *)

Lemma pushed_foldl_push (wl : CFLRWorkList.t) es :
  CFLRWorkList.pushed (foldl (CFLRWorkList.push order) wl es)
  = reverse es ++ CFLRWorkList.pushed wl.
Proof.
  revert wl. induction es as [|e es IH]; intros wl; simpl; [done|].
  rewrite IH. simpl. rewrite reverse_cons, <- app_assoc. done.
Qed.

Lemma data_foldl_push (wl : CFLRWorkList.t) es :
  CFLRWorkList.data (foldl (CFLRWorkList.push order) wl es)
  ≡ₚ es ++ CFLRWorkList.data wl.
Proof.
  revert wl. induction es as [|e es IH]; intros wl; simpl; [done|].
  rewrite IH. destruct order; simpl.
  - rewrite (comm (++) (CFLRWorkList.data wl)). simpl.
    by rewrite Permutation_middle.
  - by rewrite Permutation_middle.
Qed.

Lemma log_inv_seed g : log_inv (seed order g).
Proof.
  unfold log_inv, seed. simpl. rewrite pushed_foldl_push. simpl.
  rewrite app_nil_r. split_and!.
  - rewrite reverse_Permutation. apply NoDup_allEdges.
  - intros x. by rewrite elem_of_reverse, elem_of_allEdges.
  - intros x. rewrite data_foldl_push. simpl. rewrite app_nil_r.
    by rewrite elem_of_allEdges.
Qed.

(** *** The push log *)

Lemma log_inv_insert st u v l :
  log_inv st → ¬ has (graph st) (mkEdge u v l) →
  log_inv (insert_and_push order st u v l).
Proof.
  intros (Hnd & Hlog & Hdata) Hnew.
  unfold log_inv, insert_and_push. cbn [graph workList]. split_and!.
  - simpl. apply NoDup_cons. split; [|done]. by rewrite Hlog.
  - intros x. simpl. rewrite elem_of_cons, has_addEdge, Hlog. done.
  - intros x. rewrite elem_of_data_push, has_addEdge. naive_solver.
Qed.

Lemma not_has_twin g u v l l' :
  inverse l = Some l' → ¬ has g (mkEdge v u l') →
  ¬ has (CFLRGraph.addEdge g u v l) (mkEdge v u l').
Proof.
  intros Hi Hn [[= _ _ ?]|?]%has_addEdge; [|done].
  by apply inverse_neq in Hi.
Qed.

Lemma log_inv_addEdge st u v l : log_inv st → log_inv (addEdge order st u v l).
Proof.
  intros Hinv.
  destruct (addEdge_cases order st u v l)
    as [[_ ->]|[(? & _ & ->)|(l' & ? & ? & ? & ->)]]; [done| |].
  - by apply log_inv_insert.
  - apply log_inv_insert; [by apply log_inv_insert|].
    simpl. by eapply not_has_twin.
Qed.

Lemma log_inv_loop_body st e : log_inv st → log_inv (loop_body order st e).
Proof.
  intros H. apply (loop_body_ind order log_inv st e); [|done].
  intros st' c _ ? _. by apply log_inv_addEdge.
Qed.

Lemma log_inv_step st st' :
  log_inv st → step order st = Some st' → log_inv st'.
Proof.
  intros (Hnd & Hlog & Hdata) (e & rest & Hpop & ->)%step_Some.
  apply log_inv_loop_body. unfold log_inv. simpl. split_and!; [done..|].
  intros x Hx. apply Hdata. rewrite Hpop. by right.
Qed.

Lemma log_inv_iterate n g : log_inv (solve_upto order n g).
Proof.
  unfold solve_upto.
  apply iterate_ind; [apply log_inv_seed|]. intros ???. by apply log_inv_step.
Qed.

(** Each pass through the loop body pushes as many edges as it logs. *)
Lemma count_addEdge st u v l :
  length (CFLRWorkList.data (workList (addEdge order st u v l)))
    + length (CFLRWorkList.pushed (workList st))
  = length (CFLRWorkList.data (workList st))
    + length (CFLRWorkList.pushed (workList (addEdge order st u v l))).
Proof.
  addEdge_split order st u v l; [done|..];
    rewrite !length_data_push; simpl; lia.
Qed.

Lemma count_loop_body st e :
  length (CFLRWorkList.data (workList (loop_body order st e)))
    + length (CFLRWorkList.pushed (workList st))
  = length (CFLRWorkList.data (workList st))
    + length (CFLRWorkList.pushed (workList (loop_body order st e))).
Proof.
  apply (loop_body_ind order
    (λ st', length (CFLRWorkList.data (workList st'))
              + length (CFLRWorkList.pushed (workList st))
            = length (CFLRWorkList.data (workList st))
              + length (CFLRWorkList.pushed (workList st'))) st e); [|done].
  intros st' c _ IH _.
  pose proof (count_addEdge st' (src c) (dst c) (label c)). lia.
Qed.

(** *** The frame of the insertions *)

Lemma inverse_inj l1 l2 l' : inverse l1 = Some l' → inverse l2 = Some l' → l1 = l2.
Proof. destruct l1, l2; simpl; congruence. Qed.

Lemma frame_inv_refl g : frame_inv g g.
Proof. split_and!; [apply grows_refl|done..]. Qed.

Lemma frame_inv_addEdge g0 st u v l :
  frame_inv g0 (graph st) →
  l = PT ∨ l = PV ∨ l = VP ∨ l = Copy →
  frame_inv g0 (graph (addEdge order st u v l)).
Proof.
  intros (Hg & Hd & Ht & Hs) Hl.
  destruct (addEdge_cases order st u v l)
    as [[_ ->]|[(Hnew & Htwin & ->)|(l' & Hnew & Hinv & Hnt & ->)]]; [done| |].
  - unfold insert_and_push. cbn [graph]. split_and!.
    + eapply grows_trans; [done|apply grows_graph_addEdge].
    + intros x [->|Hx]%has_addEdge ?; [|by apply Hd].
      unfold derived. simpl. tauto.
    + intros x k' [->|Hx]%has_addEdge Hx0 Hk; apply has_addEdge; right.
      * by apply Htwin.
      * by eapply Ht.
    + intros Hs0 a b k k' Hk. specialize (Hs Hs0 a b k k' Hk).
      rewrite !has_addEdge. split.
      * intros [[= -> -> ->]|?]; right; [by apply Htwin|by apply Hs].
      * intros [[= -> -> ->]|?]; [|right; by apply Hs].
        apply inverse_cases in Hk. naive_solver.
  - unfold insert_and_push. cbn [graph]. split_and!.
    + eapply grows_trans; [done|].
      eapply grows_trans; apply grows_graph_addEdge.
    + intros x [->|[->|Hx]%has_addEdge]%has_addEdge ?; [| |by apply Hd].
      * apply inverse_cases in Hinv. unfold derived. simpl. naive_solver.
      * unfold derived. simpl. tauto.
    + intros x k' [->|[->|Hx]%has_addEdge]%has_addEdge Hx0 Hk;
        rewrite !has_addEdge.
      * simpl in Hk. apply inverse_no_inverse in Hinv. congruence.
      * simpl in *. left. congruence.
      * right; right. by eapply Ht.
    + intros Hs0 a b k k' Hk. specialize (Hs Hs0 a b k k' Hk).
      rewrite !has_addEdge. split.
      * intros [[= -> -> ->]|[[= -> -> ->]|?]].
        -- apply inverse_no_inverse in Hinv. congruence.
        -- left. congruence.
        -- right; right. by apply Hs.
      * intros [[= -> -> ->]|[[= -> -> ->]|?]].
        -- right; left. f_equal. by eapply inverse_inj.
        -- apply inverse_cases in Hk. naive_solver.
        -- right; right. by apply Hs.
Qed.

Lemma frame_inv_loop_body g0 st e :
  frame_inv g0 (graph st) → frame_inv g0 (graph (loop_body order st e)).
Proof.
  intros H. apply (loop_body_ind order (λ st', frame_inv g0 (graph st')) st e); [|done].
  intros st' c _ ? Hc. apply frame_inv_addEdge; [done|].
  by eapply candidate_label.
Qed.

Lemma frame_inv_step g0 st st' :
  frame_inv g0 (graph st) → step order st = Some st' → frame_inv g0 (graph st').
Proof.
  intros H (e & rest & Hpop & ->)%step_Some. by apply frame_inv_loop_body.
Qed.

Lemma frame_inv_iterate n g : frame_inv g (graph (solve_upto order n g)).
Proof.
  unfold solve_upto.
  apply (iterate_ind (λ st, frame_inv g (graph st)));
    [apply frame_inv_refl|].
  intros ???. by apply frame_inv_step.
Qed.

Lemma grows_step st st' :
  step order st = Some st' → grows (graph st) (graph st').
Proof.
  intros (e & rest & Hpop & ->)%step_Some.
  apply (grows_loop_body order (mkCFLR (graph st) _) e).
Qed.

(** *** Well-formedness and soundness *)

Lemma wf_addEdge_helper st u v l :
  CFLRGraph.wf (graph st) → CFLRGraph.wf (graph (addEdge order st u v l)).
Proof.
  intros Hwf.
  addEdge_split order st u v l; auto using wf_addEdge.
Qed.

Lemma has_pred g u v l :
  CFLRGraph.wf g →
  u ∈ CFLRGraph.at2 (CFLRGraph.predMap g) v l ↔ has g (mkEdge u v l).
Proof. intros Hwf. rewrite has_iff. simpl. symmetry. apply Hwf. Qed.

Lemma has_succ g u v l :
  v ∈ CFLRGraph.at2 (CFLRGraph.succMap g) u l ↔ has g (mkEdge u v l).
Proof. by rewrite has_iff. Qed.

Lemma candidate_Derived (I : CFLREdge → Prop) g e c :
  CFLRGraph.wf g → (∀ x, has g x → Derived I x) → has g e →
  candidate g e c → Derived I c.
Proof.
  intros Hwf Hs He.
  intros [[HA ->]|[(w & l2 & l3 & Hp & Hw & ->)|(w & l1 & l3 & Hp & Hw & ->)]].
  - apply Derived_unary. rewrite <- HA. destruct e. by apply Hs.
  - eapply (Derived_binary I (src e) (dst e) w); [done| |].
    + destruct e. by apply Hs.
    + by apply Hs, has_succ.
  - eapply (Derived_binary I w (src e) (dst e)); [done| |].
    + by apply Hs, has_pred.
    + destruct e. by apply Hs.
Qed.

Lemma sound_addEdge g0 st u v l :
  grows g0 (graph st) →
  (∀ x, has (graph st) x → Derived (has g0) x) →
  Derived (has g0) (mkEdge u v l) →
  ∀ x, has (graph (addEdge order st u v l)) x → Derived (has g0) x.
Proof.
  intros Hg Hs Hc x.
  destruct (addEdge_cases order st u v l)
    as [[_ ->]|[(Hnew & _ & ->)|(l' & Hnew & Hinv & _ & ->)]]; [by apply Hs| |];
    unfold insert_and_push; cbn [graph]; rewrite !has_addEdge.
  - intros [->|?]; [done|by apply Hs].
  - intros [->|[->|?]]; [|done|by apply Hs].
    eapply Derived_inverse; [done..|].
    intros H0. apply Hnew. by eapply grows_has.
Qed.

Lemma sound_loop_body g0 st e :
  grows g0 (graph st) → CFLRGraph.wf (graph st) → has (graph st) e →
  (∀ x, has (graph st) x → Derived (has g0) x) →
  CFLRGraph.wf (graph (loop_body order st e)) ∧
  ∀ x, has (graph (loop_body order st e)) x → Derived (has g0) x.
Proof.
  intros Hg Hwf He Hs.
  apply (loop_body_ind order
    (λ st', CFLRGraph.wf (graph st') ∧
            ∀ x, has (graph st') x → Derived (has g0) x) st e); [|done].
  intros st' c Hg' [Hwf' Hs'] Hc. split; [by apply wf_addEdge_helper|].
  apply sound_addEdge; [by eapply grows_trans|done|].
  destruct c. eapply candidate_Derived; [done..| |done].
  by eapply grows_has.
Qed.

(** *** Closure on the processed edges *)

Lemma processed_addEdge st u v l x :
  processed (addEdge order st u v l) x → processed st x.
Proof.
  unfold processed.
  addEdge_split order st u v l; [done|..];
    rewrite !elem_of_data_push, !has_addEdge; naive_solver.
Qed.

Lemma closed_on_processed_addEdge skip st u v l :
  closed_on_processed skip st → closed_on_processed skip (addEdge order st u v l).
Proof.
  intros [H1 H2]. split.
  - intros e He%processed_addEdge ??.
    eapply grows_has; [apply grows_addEdge|]. by apply H1.
  - intros e1 e2 l3 He1%processed_addEdge ? He2%processed_addEdge ???.
    eapply grows_has; [apply grows_addEdge|]. by apply H2.
Qed.

Lemma new_on_worklist_addEdge g st u v l :
  (∀ x, has (graph st) x → has g x ∨ x ∈ CFLRWorkList.data (workList st)) →
  ∀ x, has (graph (addEdge order st u v l)) x →
       has g x ∨ x ∈ CFLRWorkList.data (workList (addEdge order st u v l)).
Proof.
  intros H x.
  addEdge_split order st u v l; [by apply H|..];
    rewrite !elem_of_data_push, !has_addEdge; naive_solver.
Qed.

Lemma closed_loop_body st e :
  CFLRGraph.wf (graph st) → has (graph st) e →
  closed_on_processed (λ x, x = e) st →
  closed_on_processed (λ _, False) (loop_body order st e).
Proof.
  intros Hwf He Hcl.
  assert (closed_on_processed (λ x, x = e) (loop_body order st e) ∧
          ∀ x, has (graph (loop_body order st e)) x →
               has (graph st) x
               ∨ x ∈ CFLRWorkList.data (workList (loop_body order st e)))
    as [[H1 H2] Hnew].
  { apply (loop_body_ind order
      (λ st', closed_on_processed (λ x, x = e) st' ∧
              ∀ x, has (graph st') x →
                   has (graph st) x ∨ x ∈ CFLRWorkList.data (workList st'))
      st e); [|by auto].
    intros st' c _ [??] _. split.
    - by apply closed_on_processed_addEdge.
    - by apply new_on_worklist_addEdge. }
  assert (∀ x, processed (loop_body order st e) x → has (graph st) x) as Hold.
  { intros x [Hx Hd]. destruct (Hnew x Hx); done. }
  split.
  - intros e1 Hp1 _ HA. destruct (decide (e1 = e)) as [->|Hne]; [|by apply H1].
    apply loop_body_complete. by left.
  - intros e1 e2 l3 Hp1 _ Hp2 _ Hmid Hprod.
    destruct (decide (e1 = e)) as [->|Hne1].
    { apply loop_body_complete. right; left.
      exists (dst e2), (label e2), l3. split_and!; [done| |done].
      rewrite Hmid. apply has_iff. by apply Hold. }
    destruct (decide (e2 = e)) as [->|Hne2]; [|by apply H2].
    apply loop_body_complete. right; right.
    exists (src e1), (label e1), l3. split_and!; [done| |done].
    rewrite <- Hmid. apply has_pred; [done|]. destruct e1. by apply Hold.
Qed.

(** *** The loop invariant *)

Lemma loop_inv_seed g : CFLRGraph.wf g → loop_inv g (seed order g).
Proof.
  intros Hwf.
  assert (∀ x, ¬ processed (seed order g) x) as Hnone.
  { intros x [Hx Hd]. apply Hd. unfold seed. cbn [workList].
    rewrite data_foldl_push. simpl. rewrite app_nil_r.
    by apply elem_of_allEdges. }
  split_and!; [done|by constructor|].
  split; [intros e He|intros e1 e2 l3 He]; by apply Hnone in He.
Qed.

Lemma loop_inv_step g0 st st' :
  log_inv st → frame_inv g0 (graph st) → loop_inv g0 st →
  step order st = Some st' → loop_inv g0 st'.
Proof.
  intros (_ & _ & Hdata) (Hg & _) (Hwf & Hs & [H1 H2]).
  intros (e & rest & Hpop & ->)%step_Some.
  assert (has (graph st) e) as He by (apply Hdata; rewrite Hpop; by left).
  destruct (sound_loop_body g0
              (mkCFLR (graph st)
                 (CFLRWorkList.mk rest (CFLRWorkList.pushed (workList st)))) e)
    as [Hwf' Hs']; [done..|].
  split_and!; [done..|].
  apply closed_loop_body; [done..|].
  assert (∀ x, processed
                 (mkCFLR (graph st)
                    (CFLRWorkList.mk rest (CFLRWorkList.pushed (workList st))))
                 x → x ≠ e → processed st x) as Hproc.
  { intros x [Hx Hd] Hne. split; [done|]. rewrite Hpop.
    intros [->|?]%elem_of_cons; done. }
  split.
  - intros x Hx Hne HA. apply (H1 x); auto.
  - intros e1 e2 l3 Hp1 Hn1 Hp2 Hn2 Hmid Hprod. apply (H2 e1 e2 l3); auto.
Qed.

Lemma loop_inv_iterate n g :
  CFLRGraph.wf g → loop_inv g (solve_upto order n g).
Proof.
  intros Hwf. unfold solve_upto.
  cut (log_inv (iterate order n (seed order g)) ∧
       frame_inv g (graph (iterate order n (seed order g))) ∧
       loop_inv g (iterate order n (seed order g))); [tauto|].
  apply (iterate_ind
    (λ st, log_inv st ∧ frame_inv g (graph st) ∧ loop_inv g st)).
  - split_and!; [apply log_inv_seed|apply frame_inv_refl|by apply loop_inv_seed].
  - intros st1 st2 (? & ? & ?) ?. split_and!.
    + by eapply log_inv_step.
    + by eapply frame_inv_step.
    + by eapply loop_inv_step.
Qed.

End RunFacts.

(** ** Termination *)

Section Termination.

Variable order : CFLRWorkList.Order.
Implicit Types (st : CFLR) (g : CFLRGraph.t) (e c x : CFLREdge).

Lemma length_bind_const {A B} (f : A → list B) (xs : list A) k :
  (∀ a, length (f a) = k) → length (xs ≫= f) = length xs * k.
Proof.
  intros Hf. induction xs as [|a xs IH]; [done|].
  rewrite bind_cons, length_app, IH, Hf. simpl. lia.
Qed.

Lemma length_universe (V : gset nat) :
  length (universe V) = size V * size V * length all_labels.
Proof.
  unfold universe.
  rewrite (length_bind_const _ _ (size V * length all_labels)).
  { unfold size, set_size. simpl. lia. }
  intros u. rewrite (length_bind_const _ _ (length all_labels)); [done|].
  intros v. by rewrite (length_bind_const _ _ 1); [lia|].
Qed.

Lemma elem_of_universe (V : gset nat) x :
  src x ∈ V → dst x ∈ V → x ∈ universe V.
Proof.
  intros Hs Hd. unfold universe.
  apply list_elem_of_bind. exists (src x). split; [|by apply elem_of_elements].
  apply list_elem_of_bind. exists (dst x). split; [|by apply elem_of_elements].
  apply list_elem_of_bind. exists (label x). split.
  - destruct x. by apply list_elem_of_singleton.
  - unfold all_labels. destruct (label x); set_solver.
Qed.

Lemma size_list_to_set_le (es : list CFLREdge) :
  size (list_to_set es : gset CFLREdge) ≤ length es.
Proof.
  induction es as [|a es IH].
  - rewrite list_to_set_nil, size_empty. simpl. lia.
  - rewrite list_to_set_cons, size_union_alt, size_singleton.
    assert (size (list_to_set es ∖ {[a]} : gset CFLREdge)
            ≤ size (list_to_set es : gset CFLREdge)) as H
      by (apply subseteq_size; set_solver).
    simpl. lia.
Qed.

Lemma has_endpoints g x :
  has g x →
  src x ∈ endpoints (CFLRGraph.allEdges g) ∧
  dst x ∈ endpoints (CFLRGraph.allEdges g).
Proof.
  intros Hx%elem_of_allEdges. unfold endpoints.
  rewrite !elem_of_union, !elem_of_list_to_set.
  split; [left|right]; by apply list_elem_of_fmap_2.
Qed.

Lemma node_inv_nodes g : node_inv (nodes g) g.
Proof.
  intros u v l. unfold nodes. split.
  - intros Hv. destruct (has_endpoints g (mkEdge u v l)) as [??];
      [by apply has_succ|]. set_solver.
  - intros Hv.
    destruct (has_endpoints (CFLRGraph.transpose g) (mkEdge u v l)) as [??];
      [by apply has_succ|]. set_solver.
Qed.

Lemma node_inv_graph_addEdge V g a b k :
  node_inv V g → a ∈ V → b ∈ V → node_inv V (CFLRGraph.addEdge g a b k).
Proof.
  intros Hinv Ha Hb u v l. destruct (Hinv u v l) as [H1 H2].
  simpl. rewrite !at2_insert2.
  split; case_decide; try done; destruct_and!; subst;
    rewrite elem_of_union, elem_of_singleton; intros [->|?]; auto.
Qed.

Lemma node_inv_addEdge V st a b k :
  node_inv V (graph st) → a ∈ V → b ∈ V →
  node_inv V (graph (addEdge order st a b k)).
Proof.
  intros Hinv Ha Hb.
  addEdge_split order st a b k; auto using node_inv_graph_addEdge.
Qed.

Lemma candidate_nodes V g e c :
  node_inv V g → has g e → candidate g e c → src c ∈ V ∧ dst c ∈ V.
Proof.
  intros Hinv He%has_iff. apply Hinv in He as [??].
  intros [[_ ->]|[(w & l2 & l3 & _ & Hw & ->)|(w & l1 & l3 & _ & Hw & ->)]];
    simpl; [done| |]; apply Hinv in Hw as [??]; done.
Qed.

Lemma node_inv_step V st st' :
  log_inv st → node_inv V (graph st) → step order st = Some st' →
  node_inv V (graph st').
Proof.
  intros (_ & _ & Hdata) Hinv (e & rest & Hpop & ->)%step_Some.
  assert (has (graph st) e) as He by (apply Hdata; rewrite Hpop; by left).
  apply (loop_body_ind order (λ st', node_inv V (graph st'))
           (mkCFLR (graph st) _) e); [|done].
  intros st' c Hg Hinv' Hc.
  destruct (candidate_nodes V (graph st') e c) as [??]; [done| |done|].
  { by eapply grows_has. }
  by apply node_inv_addEdge.
Qed.

Lemma pushed_bound V st :
  log_inv st → node_inv V (graph st) →
  length (CFLRWorkList.pushed (workList st)) ≤ size V * size V * length all_labels.
Proof.
  intros (Hnd & Hlog & _) Hinv.
  rewrite <- (size_list_to_set (C := gset CFLREdge)) by done.
  rewrite <- length_universe.
  etrans; [|apply size_list_to_set_le].
  apply subseteq_size. intros x. rewrite !elem_of_list_to_set, Hlog.
  intros Hx%has_iff. apply Hinv in Hx as [??]. by apply elem_of_universe.
Qed.

Lemma count_step st st' :
  step order st = Some st' →
  length (CFLRWorkList.data (workList st'))
    + S (length (CFLRWorkList.pushed (workList st)))
  = length (CFLRWorkList.data (workList st))
    + length (CFLRWorkList.pushed (workList st')).
Proof.
  intros (e & rest & Hpop & ->)%step_Some. rewrite Hpop.
  pose proof (count_loop_body order
    (mkCFLR (graph st)
       (CFLRWorkList.mk rest (CFLRWorkList.pushed (workList st)))) e) as H.
  simpl in *. lia.
Qed.

Lemma iterate_terminates g0 n st :
  log_inv st → node_inv (nodes g0) (graph st) →
  length (CFLRWorkList.data (workList st)) + universe_size g0
    ≤ n + length (CFLRWorkList.pushed (workList st)) →
  step order (iterate order n st) = None.
Proof.
  revert st. induction n as [|n IH]; intros st Hlog Hnodes Hn.
  - simpl. apply step_None.
    pose proof (pushed_bound (nodes g0) st Hlog Hnodes).
    apply length_zero_iff_nil. unfold universe_size in Hn. lia.
  - simpl. destruct (step order st) as [st'|] eqn:Hs; [|done].
    apply IH.
    + by eapply log_inv_step.
    + by eapply node_inv_step.
    + pose proof (count_step st st' Hs). lia.
Qed.

Lemma length_seed g :
  length (CFLRWorkList.data (workList (seed order g)))
  = length (CFLRWorkList.pushed (workList (seed order g))).
Proof.
  unfold seed. cbn [workList].
  rewrite data_foldl_push, pushed_foldl_push, !length_app, length_reverse.
  done.
Qed.

Lemma solve_quiescent g : step order (solve order g) = None.
Proof.
  unfold solve, solve_upto.
  apply (iterate_terminates g).
  - apply log_inv_seed.
  - apply node_inv_nodes.
  - rewrite length_seed. lia.
Qed.

Lemma node_inv_iterate n g : node_inv (nodes g) (graph (solve_upto order n g)).
Proof.
  unfold solve_upto.
  cut (log_inv (iterate order n (seed order g)) ∧
       node_inv (nodes g) (graph (iterate order n (seed order g)))); [tauto|].
  apply (iterate_ind order (λ st, log_inv st ∧ node_inv (nodes g) (graph st))).
  - split; [apply log_inv_seed|apply node_inv_nodes].
  - intros st1 st2 [??] ?. split; [by eapply log_inv_step|by eapply node_inv_step].
Qed.

Lemma iterate_add n k st :
  iterate order (n + k) st = iterate order k (iterate order n st).
Proof.
  revert st. induction n as [|n IH]; intros st; simpl; [done|].
  destruct (step order st) as [st'|] eqn:Hs; [apply IH|].
  by rewrite iterate_quiescent.
Qed.

Lemma solve_upto_stable g n :
  universe_size g ≤ n → solve_upto order n g = solve order g.
Proof.
  intros Hle. unfold solve, solve_upto.
  replace n with (universe_size g + (n - universe_size g)) at 1 by lia.
  rewrite iterate_add. apply iterate_quiescent. by apply solve_quiescent.
Qed.

End Termination.

(** ** The result of [solve] *)

Section LeastFixpoint.

Variable order : CFLRWorkList.Order.
Implicit Types (g : CFLRGraph.t) (e c x : CFLREdge).

Lemma solve_closed g :
  CFLRGraph.wf g → grammar_closed (has (graph (solve order g))).
Proof.
  intros Hwf.
  destruct (loop_inv_iterate order (universe_size g) g Hwf) as (_ & _ & [H1 H2]).
  fold (solve order g) in H1, H2.
  pose proof (solve_quiescent order g) as Hq. apply step_None in Hq.
  assert (∀ x, has (graph (solve order g)) x → processed (solve order g) x) as Hp.
  { intros x Hx. split; [done|]. rewrite Hq. apply not_elem_of_nil. }
  split.
  - intros u v Huv. apply (H1 (mkEdge u v AddrBar)); auto.
  - intros u v w l1 l2 l3 Hprod He1 He2.
    apply (H2 (mkEdge u v l1) (mkEdge v w l2) l3); auto.
Qed.

Lemma solve_Derived g x :
  CFLRGraph.wf g → has (graph (solve order g)) x ↔ Derived (has g) x.
Proof.
  intros Hwf. split.
  - by apply (loop_inv_iterate order (universe_size g) g Hwf).
  - destruct (solve_closed g Hwf) as [Hun Hbin].
    destruct (frame_inv_iterate order (universe_size g) g) as (Hg & _ & Ht & _).
    fold (solve order g) in Hg, Ht.
    induction 1 as [x Hx|u v _ IH|u v w l1 l2 l3 Hp _ IH1 _ IH2|u v l l' Hi _ IH Hn].
    + by eapply grows_has.
    + by apply Hun.
    + by eapply Hbin.
    + by apply (Ht (mkEdge u v l) l').
Qed.

Lemma Derived_least (I T : CFLREdge → Prop) :
  (∀ e, I e → T e) → grammar_closed T → inverse_closed T →
  ∀ e, Derived I e → T e.
Proof.
  intros HI [Hun Hbin] Hinv.
  induction 1 as [x Hx|u v _ IH|u v w l1 l2 l3 Hp _ IH1 _ IH2|u v l l' Hi _ IH Hn];
    eauto.
Qed.

Lemma Derived_agree (I1 I2 : CFLREdge → Prop) :
  (∀ e, label e ≠ Addr → (I1 e ↔ I2 e)) →
  ∀ e, Derived I1 e → label e ≠ Addr → Derived I2 e.
Proof.
  intros Hag.
  induction 1 as [x Hx|u v _ IH|u v w l1 l2 l3 Hp _ IH1 _ IH2|u v l l' Hi _ IH Hn];
    intros Hl.
  - apply Derived_init. by apply Hag.
  - apply Derived_unary. by apply IH.
  - apply production_cases in Hp as Hc.
    eapply Derived_binary; [done|apply IH1|apply IH2]; simpl; naive_solver.
  - apply inverse_cases in Hi as Hc.
    eapply Derived_inverse; [done|apply IH|]; simpl; [naive_solver|].
    rewrite <- Hag; [done|]. simpl. naive_solver.
Qed.

End LeastFixpoint.

(** ** The properties of [CFLR::solve] *)

(** C1 (as amended).  On a well-formed graph, when [solve] returns the
    graph is closed under the grammar: with (u, v, AddrBar) it holds
    (u, v, PT), and with (u, v, l1) and (v, w, l2) it holds (u, w, l3) for
    every production l1 . l2 -> l3.  Its edges are exactly the initial
    edges, what the productions derive from them, and the twin of every
    PT or Copy edge that is not an initial edge.  If moreover every
    initial PT or Copy edge comes with its PTBar or CopyBar twin, the edge
    set is the least one that contains the initial edges and is closed
    under the grammar and under the symmetry rule. *)
Theorem solve_least_fixpoint (order : CFLRWorkList.Order) (g : CFLRGraph.t) :
  CFLRGraph.wf g →
  grammar_closed (has (graph (solve order g))) ∧
  (∀ e, has (graph (solve order g)) e ↔ Derived (has g) e) ∧
  (inverse_closed (has g) →
   least_closed (has g) (has (graph (solve order g)))).
Proof.
  intros Hwf. split_and!; [by apply solve_closed|intros e; by apply solve_Derived|].
  intros Hsym.
  destruct (frame_inv_iterate order (universe_size g) g) as (Hg & _ & Ht & _).
  fold (solve order g) in Hg, Ht.
  split_and!.
  - intros e. by apply grows_has.
  - by apply solve_closed.
  - intros u v l l' Hi Hx.
    destruct (decide (has g (mkEdge u v l))) as [H0|H0].
    + eapply grows_has; [done|]. by eapply Hsym.
    + by apply (Ht (mkEdge u v l) l').
  - intros T HI Hgr Hinv e He%solve_Derived; [|done].
    by eapply Derived_least.
Qed.

Lemma S3_graph_twins : inverse_closed (has S3_graph).
Proof.
  intros u v l l' Hi. unfold S3_graph. rewrite !has_of_list.
  apply inverse_cases in Hi. rewrite !elem_of_cons, !elem_of_nil.
  naive_solver.
Defined.

Lemma solve_least_fixpoint_witness :
  grammar_closed (has (graph (solve CFLRWorkList.FIFO S3_graph))) ∧
  least_closed (has S3_graph) (has (graph (solve CFLRWorkList.FIFO S3_graph))).
Proof.
  destruct (solve_least_fixpoint CFLRWorkList.FIFO S3_graph
              (wf_of_list _)) as (Hcl & _ & Hleast).
  split; [exact Hcl|]. apply Hleast, S3_graph_twins.
Defined.

(** C1 as stated fails: the graph with the single edge (0, 1, Copy) is
    returned unchanged, without (1, 0, CopyBar), so the result is not
    closed under the symmetry rule. *)
Lemma solve_lone_copy_not_least :
  CFLRGraph.wf lone_copy_graph ∧
  ¬ least_closed (has lone_copy_graph)
      (has (graph (solve CFLRWorkList.FIFO lone_copy_graph))).
Proof.
  split; [apply wf_of_list|].
  intros (_ & _ & Hinv & _).
  specialize (Hinv 0 1 Copy CopyBar eq_refl).
  assert (has (graph (solve CFLRWorkList.FIFO lone_copy_graph)) (mkEdge 0 1 Copy))
    as H by (by vm_compute).
  apply Hinv in H. by vm_compute in H.
Qed.

(** C2.  If the initial graph has no PT and no PTBar edge and its Copy
    and CopyBar edges mirror each other, then after every iteration of the
    main loop, and in the final graph, (u, v, PT) is present exactly when
    (v, u, PTBar) is, and (u, v, Copy) exactly when (v, u, CopyBar) is;
    and every call of the insertion helper with one of the labels that
    [solve] passes to it keeps a symmetric graph symmetric. *)
Theorem solve_symmetry (order : CFLRWorkList.Order) (g : CFLRGraph.t) :
  (∀ u v, ¬ has g (mkEdge u v PT) ∧ ¬ has g (mkEdge u v PTBar)) →
  (∀ u v, has g (mkEdge u v Copy) ↔ has g (mkEdge v u CopyBar)) →
  (∀ n u v,
     (has (graph (solve_upto order n g)) (mkEdge u v PT)
      ↔ has (graph (solve_upto order n g)) (mkEdge v u PTBar)) ∧
     (has (graph (solve_upto order n g)) (mkEdge u v Copy)
      ↔ has (graph (solve_upto order n g)) (mkEdge v u CopyBar))) ∧
  (∀ u v,
     (has (graph (solve order g)) (mkEdge u v PT)
      ↔ has (graph (solve order g)) (mkEdge v u PTBar)) ∧
     (has (graph (solve order g)) (mkEdge u v Copy)
      ↔ has (graph (solve order g)) (mkEdge v u CopyBar))) ∧
  (∀ st u v l,
     symmetric (has (graph st)) → l = PT ∨ l = PV ∨ l = VP ∨ l = Copy →
     symmetric (has (graph (addEdge order st u v l)))).
Proof.
  intros Hpt Hcopy.
  assert (symmetric (has g)) as Hsym.
  { intros u v l l' [[-> ->]|[-> ->]]%inverse_cases; [|done].
    destruct (Hpt u v), (Hpt v u). tauto. }
  assert (∀ n, symmetric (has (graph (solve_upto order n g)))) as Hn.
  { intros n. by apply (frame_inv_iterate order n g). }
  split_and!.
  - intros n u v. split; by apply Hn.
  - intros u v. split; by apply Hn.
  - intros st u v l Hst Hl.
    by apply (frame_inv_addEdge order (graph st) st u v l (frame_inv_refl _)).
Qed.

Lemma solve_symmetry_witness :
  (has (graph (solve CFLRWorkList.FIFO S3_graph)) (mkEdge 2 3 PT)
   ↔ has (graph (solve CFLRWorkList.FIFO S3_graph)) (mkEdge 3 2 PTBar)).
Proof.
  destruct (solve_symmetry CFLRWorkList.FIFO S3_graph) as (_ & Hfin & _).
  - intros u v. unfold S3_graph. rewrite !has_of_list.
    rewrite !elem_of_cons, !elem_of_nil. naive_solver.
  - intros u v. unfold S3_graph. rewrite !has_of_list.
    rewrite !elem_of_cons, !elem_of_nil. naive_solver.
  - apply (Hfin 2 3).
Defined.

(** C3.  The edge set only grows: a call of the insertion helper keeps
    every edge, an iteration of the main loop keeps every edge, and every
    initial edge is in the final graph. *)
Theorem solve_monotone (order : CFLRWorkList.Order) (g : CFLRGraph.t) :
  (∀ n, edges (graph (solve_upto order n g))
        ⊆ edges (graph (solve_upto order (S n) g))) ∧
  edges g ⊆ edges (graph (solve order g)) ∧
  (∀ st u v l, edges (graph st) ⊆ edges (graph (addEdge order st u v l))).
Proof.
  split_and!.
  - intros n x. rewrite !elem_of_edges. unfold solve_upto. rewrite iterate_S.
    destruct (step order (iterate order n (seed order g))) as [st'|] eqn:Hs;
      [|done].
    apply grows_has. by eapply grows_step.
  - intros x. rewrite !elem_of_edges. apply grows_has.
    apply (frame_inv_iterate order (universe_size g) g).
  - intros st u v l x. rewrite !elem_of_edges. apply grows_has, grows_addEdge.
Qed.

(** C4.  The main loop exits, on every graph.  No edge is pushed twice,
    so at most |V| * |V| * |Labels| edges are ever pushed; after at most
    that many iterations the worklist is empty and the loop condition
    fails, and running the loop for longer changes nothing. *)
Theorem solve_terminates (order : CFLRWorkList.Order) (g : CFLRGraph.t) :
  CFLRWorkList.empty (workList (solve order g)) = true ∧
  step order (solve order g) = None ∧
  (∀ n, universe_size g ≤ n → solve_upto order n g = solve order g) ∧
  (∀ n, NoDup (CFLRWorkList.pushed (workList (solve_upto order n g))) ∧
        length (CFLRWorkList.pushed (workList (solve_upto order n g)))
        ≤ universe_size g).
Proof.
  pose proof (solve_quiescent order g) as Hq. split_and!.
  - apply step_None in Hq. unfold CFLRWorkList.empty. by rewrite Hq.
  - done.
  - intros n Hn. by apply solve_upto_stable.
  - intros n. pose proof (log_inv_iterate order n g) as Hlog.
    split; [apply Hlog|].
    apply (pushed_bound (nodes g)); [done|]. apply node_inv_iterate.
Qed.

(** C5.  At every point of the run, and at its end, the log of pushes
    lists the edges of the graph, each exactly once: every edge that is in
    the graph has been pushed, and none has been pushed twice. *)
Theorem solve_pushes_once (order : CFLRWorkList.Order) (g : CFLRGraph.t) :
  (∀ n, NoDup (CFLRWorkList.pushed (workList (solve_upto order n g))) ∧
        ∀ e, e ∈ CFLRWorkList.pushed (workList (solve_upto order n g))
             ↔ has (graph (solve_upto order n g)) e) ∧
  NoDup (CFLRWorkList.pushed (workList (solve order g))) ∧
  (∀ e, e ∈ CFLRWorkList.pushed (workList (solve order g))
        ↔ has (graph (solve order g)) e).
Proof.
  split.
  - intros n. destruct (log_inv_iterate order n g) as (? & ? & _). done.
  - destruct (log_inv_iterate order (universe_size g) g) as (? & ? & _). done.
Qed.

(** C6.  On a well-formed graph the saturated edge set does not depend on
    the order in which the worklist hands out its edges: a FIFO run and a
    LIFO run end with the same edges. *)
Theorem solve_order_independent (o1 o2 : CFLRWorkList.Order) (g : CFLRGraph.t) :
  CFLRGraph.wf g →
  edges (graph (solve o1 g)) = edges (graph (solve o2 g)).
Proof.
  intros Hwf. apply set_eq. intros x.
  by rewrite !elem_of_edges, !solve_Derived.
Qed.

Lemma solve_order_independent_witness :
  edges (graph (solve CFLRWorkList.FIFO S6_graph))
  = edges (graph (solve CFLRWorkList.LIFO S6_graph)).
Proof.
  apply (solve_order_independent CFLRWorkList.FIFO CFLRWorkList.LIFO S6_graph).
  apply wf_of_list.
Defined.

(** Well-formedness cannot be dropped from C1, C6 and C9: when the reverse
    index misses an edge of the forward index, Case B overlooks it, and
    what is derived depends on the order of the pops. *)
Remark order_matters_on_one_sided_graph :
  has (graph (solve CFLRWorkList.FIFO one_sided_graph)) (mkEdge 0 2 PV) ∧
  ¬ has (graph (solve CFLRWorkList.LIFO one_sided_graph)) (mkEdge 0 2 PV).
Proof. split; [by vm_compute|]. intros H. by vm_compute in H. Qed.

(** C7.  Scenario S6: from AddrBar(p, o), Store(p, p), Load(p, r) the
    solver derives PT(p, o), Copy(p, r) and PT(r, o). *)
Theorem solve_S6 (order : CFLRWorkList.Order) :
  has (graph (solve order S6_graph)) (mkEdge 0 1 PT) ∧
  has (graph (solve order S6_graph)) (mkEdge 0 2 Copy) ∧
  has (graph (solve order S6_graph)) (mkEdge 2 1 PT).
Proof. destruct order; by vm_compute. Qed.

(** C8.  The insertion helper does nothing when the edge is in the graph:
    the graph and the worklist are as before.  When the edge is new, it is
    inserted and pushed; for the label PT the twin (v, u, PTBar), and for
    the label Copy the twin (v, u, CopyBar), is inserted and pushed as
    well unless it is in the graph already; for every other label nothing
    else is inserted or pushed. *)
Theorem addEdge_frame (order : CFLRWorkList.Order) (st : CFLR)
    (u v : nat) (l : EdgeLabel) :
  (has (graph st) (mkEdge u v l) → addEdge order st u v l = st) ∧
  (¬ has (graph st) (mkEdge u v l) → l ≠ PT → l ≠ Copy →
   addEdge order st u v l
   = mkCFLR (CFLRGraph.addEdge (graph st) u v l)
            (CFLRWorkList.push order (workList st) (mkEdge u v l))) ∧
  (¬ has (graph st) (mkEdge u v l) →
   ∀ l', (l = PT ∧ l' = PTBar) ∨ (l = Copy ∧ l' = CopyBar) →
   addEdge order st u v l
   = if CFLRGraph.hasEdge (graph st) v u l'
     then mkCFLR (CFLRGraph.addEdge (graph st) u v l)
                 (CFLRWorkList.push order (workList st) (mkEdge u v l))
     else mkCFLR
            (CFLRGraph.addEdge (CFLRGraph.addEdge (graph st) u v l) v u l')
            (CFLRWorkList.push order
               (CFLRWorkList.push order (workList st) (mkEdge u v l))
               (mkEdge v u l'))).
Proof.
  destruct (addEdge_cases order st u v l)
    as [[Hin Heq]|[(Hnew & Htwin & Heq)|(k & Hnew & Hinv & Hnt & Heq)]];
    split_and!; try done.
  - intros _ l' Hl. rewrite Heq.
    assert (inverse l = Some l') as Hi by (destruct Hl as [[-> ->]|[-> ->]]; done).
    apply Htwin in Hi. unfold has in Hi. simpl in Hi. by rewrite Hi.
  - intros _ HPT HCopy. apply inverse_cases in Hinv. naive_solver.
  - intros _ l' Hl. rewrite Heq.
    assert (inverse l = Some l') as Hi by (destruct Hl as [[-> ->]|[-> ->]]; done).
    assert (k = l') as -> by congruence.
    apply hasEdge_false in Hnt. by rewrite Hnt.
Qed.

Lemma addEdge_frame_witness :
  addEdge CFLRWorkList.FIFO (mkCFLR S6_graph CFLRWorkList.new) 0 1 AddrBar
  = mkCFLR S6_graph CFLRWorkList.new.
Proof.
  apply (addEdge_frame CFLRWorkList.FIFO (mkCFLR S6_graph CFLRWorkList.new)
           0 1 AddrBar).
  by vm_compute.
Defined.

(** C9.  Two well-formed initial graphs that differ only in their Addr
    edges yield the same edges of every other label, in particular the
    same PT, PTBar, Copy, CopyBar, PV and VP edges. *)
Theorem solve_ignores_Addr (order : CFLRWorkList.Order) (g1 g2 : CFLRGraph.t) :
  CFLRGraph.wf g1 → CFLRGraph.wf g2 →
  (∀ e, label e ≠ Addr → (has g1 e ↔ has g2 e)) →
  ∀ e, label e ≠ Addr →
       (has (graph (solve order g1)) e ↔ has (graph (solve order g2)) e).
Proof.
  intros Hwf1 Hwf2 Hag e Hl. rewrite !solve_Derived by done.
  split; intros H.
  - by apply (Derived_agree (has g1) (has g2)).
  - apply (Derived_agree (has g2) (has g1)); [|done..].
    intros x Hx. symmetry. by apply Hag.
Qed.

Lemma solve_ignores_Addr_witness :
  has (graph (solve CFLRWorkList.FIFO S6_graph)) (mkEdge 2 1 PT)
  ↔ has (graph (solve CFLRWorkList.FIFO S6_graph_Addr)) (mkEdge 2 1 PT).
Proof.
  apply (solve_ignores_Addr CFLRWorkList.FIFO S6_graph S6_graph_Addr).
  - apply wf_of_list.
  - apply wf_of_list.
  - intros e Hl. unfold S6_graph, S6_graph_Addr. rewrite !has_of_list.
    rewrite (elem_of_cons _ e (mkEdge 1 0 Addr)).
    split; [auto|]. intros [->|?]; done.
  - done.
Defined.

(** C10.  The solver neither adds nor removes an edge with a terminal
    label: at every point of the run and at its end the Addr, AddrBar,
    Store and Load edges are those of the initial graph, and every edge
    that was not in the initial graph carries one of the labels PT, PTBar,
    Copy, CopyBar, PV, VP. *)
Theorem solve_terminal_frame (order : CFLRWorkList.Order) (g : CFLRGraph.t) :
  (∀ n e, terminal (label e) →
          (has (graph (solve_upto order n g)) e ↔ has g e)) ∧
  (∀ e, terminal (label e) → (has (graph (solve order g)) e ↔ has g e)) ∧
  (∀ e, has (graph (solve order g)) e → ¬ has g e → derived (label e)).
Proof.
  assert (∀ n e, terminal (label e) →
                 (has (graph (solve_upto order n g)) e ↔ has g e)) as Hn.
  { intros n e Ht.
    destruct (frame_inv_iterate order n g) as (Hg & Hd & _).
    split; [|by apply grows_has].
    intros Hx. destruct (decide (has g e)) as [|Hn]; [done|].
    specialize (Hd e Hx Hn). unfold terminal, derived in *.
    destruct (label e); naive_solver. }
  split_and!; [done|intros e; apply Hn|].
  intros e. by apply (frame_inv_iterate order (universe_size g) g).
Qed.

(** ** The scenarios of the spec, evaluated *)

Example solve_S2 (order : CFLRWorkList.Order) :
  has (graph (solve order S2_graph)) (mkEdge 0 2 PT) ∧
  has (graph (solve order S2_graph)) (mkEdge 1 2 PT) ∧
  has (graph (solve order S2_graph)) (mkEdge 3 4 Copy).
Proof. destruct order; by vm_compute. Qed.

Example solve_S3 (order : CFLRWorkList.Order) :
  filter (λ e, label e = PT) (edges (graph (solve order S3_graph)))
  = {[mkEdge 0 3 PT; mkEdge 1 3 PT; mkEdge 2 3 PT]}.
Proof. destruct order; by vm_compute. Qed.

Example solve_S4 (order : CFLRWorkList.Order) :
  solve order CFLRGraph.empty = mkCFLR CFLRGraph.empty CFLRWorkList.new.
Proof. destruct order; by vm_compute. Qed.

Example solve_S5 (order : CFLRWorkList.Order) :
  filter (λ e, label e = PT) (edges (graph (solve order S5_graph)))
  = {[mkEdge 0 2 PT; mkEdge 0 3 PT; mkEdge 1 2 PT; mkEdge 1 3 PT]}.
Proof. destruct order; by vm_compute. Qed.

(** ** Further properties of the loop body *)

(** The twin that the insertion helper adds along with a new edge [c]. *)
Definition twin_of (c x : CFLREdge) : Prop :=
  ∃ l', inverse (label c) = Some l' ∧ x = mkEdge (dst c) (src c) l'.

(** The sets that the loops of one iteration read are the same in [g]
    and [g']: the successors of [dst e] under the right operands of
    [label e], and the predecessors of [src e] under its left operands. *)
Definition same_sources (e : CFLREdge) (g g' : CFLRGraph.t) : Prop :=
  (∀ l2 l3, production (label e) l2 = Some l3 →
     CFLRGraph.at2 (CFLRGraph.succMap g') (dst e) l2
     = CFLRGraph.at2 (CFLRGraph.succMap g) (dst e) l2) ∧
  (∀ l1 l3, production l1 (label e) = Some l3 →
     CFLRGraph.at2 (CFLRGraph.predMap g') (src e) l1
     = CFLRGraph.at2 (CFLRGraph.predMap g) (src e) l1).

(** Closes a goal whose hypotheses name incompatible labels. *)
Ltac label_clash :=
  repeat match goal with
         | H : _ ∨ _ |- _ => destruct H
         | H : _ ∧ _ |- _ => destruct H
         end;
  congruence.

Section BodyFacts.

Variable order : CFLRWorkList.Order.
Implicit Types (st : CFLR) (g : CFLRGraph.t) (e c x : CFLREdge).

Lemma same_sources_addEdge e g st c :
  same_sources e g (graph st) → candidate (graph st) e c →
  same_sources e g (graph (addEdge order st (src c) (dst c) (label c))).
Proof.
  intros [Hsucc Hpred] Hc. split.
  - intros l2 l3 Hp. rewrite <- (Hsucc l2 l3 Hp).
    destruct Hc as [[HA ->]|[(w & k2 & k3 & Hp' & Hw & ->)|(w & k1 & k3 & Hp' & _ & ->)]];
      simpl.
    + rewrite HA in Hp. done.
    + apply succ_addEdge_stable.
      * intros l' Hi. apply inverse_cases in Hi.
        apply production_cases in Hp, Hp'. label_clash.
      * intros _ ->. apply production_cases in Hp, Hp'.
        assert (k2 = l2) as <-; [label_clash|done].
    + apply production_cases in Hp, Hp'. label_clash.
  - intros l1 l3 Hp. rewrite <- (Hpred l1 l3 Hp).
    destruct Hc as [[HA ->]|[(w & k2 & k3 & Hp' & _ & ->)|(w & k1 & k3 & Hp' & _ & ->)]];
      simpl.
    + rewrite HA in Hp. by destruct l1.
    + apply production_cases in Hp, Hp'. label_clash.
    + apply pred_addEdge_stable.
      * apply production_cases in Hp, Hp'. label_clash.
      * intros l' Hi. apply inverse_cases in Hi.
        apply production_cases in Hp, Hp'. label_clash.
Qed.

Lemma candidate_same_sources e g g' c :
  same_sources e g g' → candidate g' e c → candidate g e c.
Proof.
  intros [Hsucc Hpred].
  intros [?|[(w & l2 & l3 & Hp & Hw & ->)|(w & l1 & l3 & Hp & Hw & ->)]].
  - by left.
  - right; left. exists w, l2, l3. by rewrite <- (Hsucc l2 l3 Hp).
  - right; right. exists w, l1, l3. by rewrite <- (Hpred l1 l3 Hp).
Qed.

Lemma loop_body_only st e x :
  has (graph (loop_body order st e)) x →
  has (graph st) x ∨
  ∃ c, candidate (graph st) e c ∧ (x = c ∨ (¬ has (graph st) c ∧ twin_of c x)).
Proof.
  revert x.
  apply (loop_body_ind order
    (λ st', same_sources e (graph st) (graph st') ∧
            ∀ x, has (graph st') x →
                 has (graph st) x ∨
                 ∃ c, candidate (graph st) e c ∧
                      (x = c ∨ (¬ has (graph st) c ∧ twin_of c x))) st e);
    [|split; [by split|by left]].
  intros st' c Hg [Hsame Hx] Hc. split; [by apply same_sources_addEdge|].
  pose proof (candidate_same_sources e _ _ c Hsame Hc) as Hc0.
  intros x.
  destruct (addEdge_cases order st' (src c) (dst c) (label c))
    as [[_ ->]|[(Hnew & _ & ->)|(l' & Hnew & Hinv & _ & ->)]]; [by apply Hx| |];
    unfold insert_and_push; cbn [graph]; rewrite !has_addEdge.
  - intros [->|?]; [|by apply Hx]. right. exists c. destruct c. auto.
  - intros [->|[->|?]]; [| |by apply Hx]; right; exists c.
    + split; [done|]. right. split.
      * intros H0. apply Hnew. destruct c. by eapply grows_has.
      * by exists l'.
    + destruct c. auto.
Qed.

End BodyFacts.

(** X1.  One iteration of the main loop adds to the graph exactly the
    results of the rules in which the popped edge takes part (the unary
    rule when it is an AddrBar edge, each production with it as the left
    operand and a successor edge, each production with it as the right
    operand and a predecessor edge), and the twin of each such PT or Copy
    result that was not yet in the graph; every other edge is in the graph
    afterwards exactly when it was before. *)
Theorem loop_body_adds_exactly (order : CFLRWorkList.Order) (st : CFLR)
    (e x : CFLREdge) :
  has (graph (loop_body order st e)) x ↔
  has (graph st) x ∨
  ∃ c, candidate (graph st) e c ∧ (x = c ∨ (¬ has (graph st) c ∧ twin_of c x)).
Proof.
  split; [apply loop_body_only|].
  intros [Hx|(c & Hc & [->|[Hnew (l' & Hi & ->)]])].
  - eapply grows_has; [apply grows_loop_body|done].
  - by apply loop_body_complete.
  - destruct (frame_inv_loop_body order (graph st) st e (frame_inv_refl _))
      as (_ & _ & Ht & _).
    apply (Ht c l'); [by apply loop_body_complete|done..].
Qed.

(** X2.  No loop of the body inserts into the set it runs over: the set
    [succs[l2]] of Case A and the sets [preds[l1]] of Case B hold the same
    members when the case is left as when it was entered (and, since the
    graph only grows, at every point in between). *)
Theorem loops_keep_iterated_sets (order : CFLRWorkList.Order) (st : CFLR)
    (u v : nat) :
  CFLRGraph.at2 (CFLRGraph.succMap (graph (matchRight order st u v CopyBar))) v PT
  = CFLRGraph.at2 (CFLRGraph.succMap (graph st)) v PT ∧
  CFLRGraph.at2 (CFLRGraph.succMap (graph (matchRight order st u v Store))) v PT
  = CFLRGraph.at2 (CFLRGraph.succMap (graph st)) v PT ∧
  CFLRGraph.at2 (CFLRGraph.succMap (graph (matchRight order st u v PTBar))) v Load
  = CFLRGraph.at2 (CFLRGraph.succMap (graph st)) v Load ∧
  CFLRGraph.at2 (CFLRGraph.succMap (graph (matchRight order st u v PV))) v VP
  = CFLRGraph.at2 (CFLRGraph.succMap (graph st)) v VP ∧
  CFLRGraph.at2 (CFLRGraph.predMap (graph (matchLeft order st u v PT))) u CopyBar
  = CFLRGraph.at2 (CFLRGraph.predMap (graph st)) u CopyBar ∧
  CFLRGraph.at2 (CFLRGraph.predMap (graph (matchLeft order st u v PT))) u Store
  = CFLRGraph.at2 (CFLRGraph.predMap (graph st)) u Store ∧
  CFLRGraph.at2 (CFLRGraph.predMap (graph (matchLeft order st u v Load))) u PTBar
  = CFLRGraph.at2 (CFLRGraph.predMap (graph st)) u PTBar ∧
  CFLRGraph.at2 (CFLRGraph.predMap (graph (matchLeft order st u v VP))) u PV
  = CFLRGraph.at2 (CFLRGraph.predMap (graph st)) u PV.
Proof.
  split_and!;
    first [by eapply matchRight_iterated_set|by eapply matchLeft_iterated_set].
Qed.

(** ** Further properties of the run *)

(** The queue holds no edge twice, and only edges of the graph. *)
Definition queue_inv (st : CFLR) : Prop :=
  NoDup (CFLRWorkList.data (workList st)) ∧
  ∀ x, x ∈ CFLRWorkList.data (workList st) → has (graph st) x.

Section RunCounts.

Variable order : CFLRWorkList.Order.
Implicit Types (st : CFLR) (g : CFLRGraph.t) (e c x : CFLREdge).

Lemma data_push_perm (wl : CFLRWorkList.t) e :
  CFLRWorkList.data (CFLRWorkList.push order wl e)
  ≡ₚ e :: CFLRWorkList.data wl.
Proof.
  destruct order; simpl; [|done].
  by rewrite (comm (++) (CFLRWorkList.data wl)).
Qed.

Lemma queue_inv_insert st u v l :
  queue_inv st → ¬ has (graph st) (mkEdge u v l) →
  queue_inv (insert_and_push order st u v l).
Proof.
  intros [Hnd Hin] Hnew. unfold queue_inv, insert_and_push. cbn [graph workList].
  split.
  - rewrite data_push_perm. apply NoDup_cons. split; [|done].
    intros Hx. by apply Hnew, Hin.
  - intros x. rewrite elem_of_data_push, has_addEdge. naive_solver.
Qed.

Lemma queue_inv_addEdge st u v l :
  queue_inv st → queue_inv (addEdge order st u v l).
Proof.
  intros Hinv.
  destruct (addEdge_cases order st u v l)
    as [[_ ->]|[(? & _ & ->)|(l' & ? & ? & ? & ->)]]; [done| |].
  - by apply queue_inv_insert.
  - apply queue_inv_insert; [by apply queue_inv_insert|].
    simpl. by eapply not_has_twin.
Qed.

Lemma queue_inv_step st st' :
  queue_inv st → step order st = Some st' → queue_inv st'.
Proof.
  intros [Hnd Hin] (e & rest & Hpop & ->)%step_Some.
  apply (loop_body_ind order queue_inv (mkCFLR (graph st) _) e).
  { intros st' c _ ? _. by apply queue_inv_addEdge. }
  rewrite Hpop in Hnd, Hin. apply NoDup_cons in Hnd as [_ Hnd].
  split; [done|]. simpl. intros x Hx. apply Hin. by right.
Qed.

Lemma queue_inv_iterate n g : queue_inv (solve_upto order n g).
Proof.
  unfold solve_upto. apply iterate_ind.
  - destruct (log_inv_seed order g) as (_ & _ & Hin). split; [|done].
    unfold seed. cbn [workList]. rewrite data_foldl_push. simpl.
    rewrite app_nil_r. apply NoDup_allEdges.
  - intros ???. by apply queue_inv_step.
Qed.

Lemma pushed_le_addEdge st u v l :
  length (CFLRWorkList.pushed (workList st))
  ≤ length (CFLRWorkList.pushed (workList (addEdge order st u v l))).
Proof. addEdge_split order st u v l; simpl; lia. Qed.

Lemma pushed_le_step st st' :
  step order st = Some st' →
  length (CFLRWorkList.pushed (workList st))
  ≤ length (CFLRWorkList.pushed (workList st')).
Proof.
  intros (e & rest & Hpop & ->)%step_Some.
  apply (loop_body_ind order
    (λ st', length (CFLRWorkList.pushed (workList st))
            ≤ length (CFLRWorkList.pushed (workList st')))
    (mkCFLR (graph st) _) e); [|done].
  intros st' c _ IH _. etrans; [done|apply pushed_le_addEdge].
Qed.

Lemma pushed_le_iterate k st :
  length (CFLRWorkList.pushed (workList st))
  ≤ length (CFLRWorkList.pushed (workList (iterate order k st))).
Proof.
  revert st. induction k as [|k IH]; intros st; simpl; [done|].
  destruct (step order st) as [st'|] eqn:Hs; [|done].
  etrans; [by apply pushed_le_step|apply IH].
Qed.

(** As long as the loop runs, the pushes so far are the queued edges and
    one edge per iteration. *)
Lemma pops_count n g :
  length (CFLRWorkList.pushed (workList (solve_upto order n g)))
  = length (CFLRWorkList.data (workList (solve_upto order n g))) + n
  ∨ (CFLRWorkList.data (workList (solve_upto order n g)) = [] ∧
     length (CFLRWorkList.pushed (workList (solve_upto order n g))) ≤ n).
Proof.
  induction n as [|n IH].
  - left. unfold solve_upto.
    change (iterate order 0 (seed order g)) with (seed order g).
    rewrite (length_seed order). lia.
  - unfold solve_upto in *. rewrite iterate_S.
    destruct (step order (iterate order n (seed order g))) as [st'|] eqn:Hs.
    + left. pose proof (count_step order _ _ Hs) as Hc.
      destruct IH as [IH|[Hnil _]]; [lia|].
      apply (step_None order) in Hnil. congruence.
    + right. pose proof (proj1 (step_None order _) Hs) as Hnil. split; [done|].
      destruct IH as [IH|[_ IH]]; [|lia]. rewrite Hnil in IH. simpl in IH. lia.
Qed.

Lemma size_edges_pushed st :
  log_inv st →
  size (edges (graph st)) = length (CFLRWorkList.pushed (workList st)).
Proof.
  intros (Hnd & Hlog & _).
  rewrite <- (size_list_to_set (C := gset CFLREdge)) by done.
  f_equal. apply set_eq. intros x.
  by rewrite elem_of_edges, elem_of_list_to_set, Hlog.
Qed.

Lemma solve_upto_final n g :
  step order (solve_upto order n g) = None →
  solve_upto order n g = solve order g.
Proof.
  intros Hq. destruct (decide (n ≤ universe_size g)) as [Hle|Hgt].
  - unfold solve, solve_upto in *.
    replace (universe_size g) with (n + (universe_size g - n)) by lia.
    rewrite iterate_add.
    by rewrite (iterate_quiescent order (universe_size g - n) _ Hq).
  - apply solve_upto_stable. lia.
Qed.

End RunCounts.

(** X3.  The main loop makes exactly one iteration per edge of the
    saturated graph: the worklist is empty after [n] iterations exactly
    when [n] is at least the number of edges of the final graph. *)
Theorem solve_iterations (order : CFLRWorkList.Order) (g : CFLRGraph.t)
    (n : nat) :
  step order (solve_upto order n g) = None
  ↔ size (edges (graph (solve order g))) ≤ n.
Proof.
  rewrite (size_edges_pushed (solve order g))
    by apply (log_inv_iterate order (universe_size g) g).
  split.
  - intros Hq. rewrite <- (solve_upto_final order n g Hq).
    apply step_None in Hq.
    destruct (pops_count order n g) as [H|[_ H]]; [|done].
    rewrite Hq in H. simpl in H. lia.
  - intros Hle.
    destruct (step order (solve_upto order n g)) as [st'|] eqn:Hs; [|done].
    exfalso.
    assert (CFLRWorkList.data (workList (solve_upto order n g)) ≠ []) as Hne.
    { intros Hnil%(step_None order). congruence. }
    destruct (pops_count order n g) as [H|[Hnil _]]; [|done].
    assert (n ≤ universe_size g) as Hn.
    { destruct (decide (n ≤ universe_size g)) as [|Hgt]; [done|].
      rewrite solve_upto_stable in Hs by lia.
      rewrite solve_quiescent in Hs. done. }
    pose proof (pushed_le_iterate order (universe_size g - n)
                  (solve_upto order n g)) as Hmono.
    unfold solve_upto in Hmono. rewrite <- iterate_add in Hmono.
    replace (n + (universe_size g - n)) with (universe_size g) in Hmono by lia.
    fold (solve_upto order n g) in Hmono.
    fold (solve_upto order (universe_size g) g) in Hmono.
    fold (solve order g) in Hmono.
    destruct (CFLRWorkList.data (workList (solve_upto order n g))); [done|].
    simpl in H. lia.
Qed.

(** X4.  At every point of the run the queue holds no edge twice, holds
    only edges that are in the graph, and is therefore never longer than
    the graph has edges. *)
Theorem worklist_bounded_by_graph (order : CFLRWorkList.Order)
    (g : CFLRGraph.t) (n : nat) :
  NoDup (CFLRWorkList.data (workList (solve_upto order n g))) ∧
  (∀ x, x ∈ CFLRWorkList.data (workList (solve_upto order n g)) →
        has (graph (solve_upto order n g)) x) ∧
  length (CFLRWorkList.data (workList (solve_upto order n g)))
  ≤ size (edges (graph (solve_upto order n g))).
Proof.
  destruct (queue_inv_iterate order n g) as [Hnd Hin]. split_and!; [done..|].
  rewrite <- (size_list_to_set (C := gset CFLREdge)) by done.
  apply subseteq_size. intros x.
  rewrite elem_of_list_to_set, elem_of_edges. apply Hin.
Qed.

(** ** Nodes and indices *)

Section NodeFacts.

Implicit Types (g : CFLRGraph.t) (e c x : CFLREdge).

Lemma elem_of_endpoints g (a : nat) :
  a ∈ endpoints (CFLRGraph.allEdges g)
  ↔ ∃ e, has g e ∧ (a = src e ∨ a = dst e).
Proof.
  unfold endpoints.
  rewrite elem_of_union, !elem_of_list_to_set, !list_elem_of_fmap.
  setoid_rewrite elem_of_allEdges. naive_solver.
Qed.

Lemma has_transpose g e :
  has (CFLRGraph.transpose g) e
  ↔ dst e ∈ CFLRGraph.at2 (CFLRGraph.predMap g) (src e) (label e).
Proof. by rewrite has_iff. Qed.

Lemma nodes_grows g g' : grows g g' → nodes g ⊆ nodes g'.
Proof.
  intros Hg a. unfold nodes. rewrite !elem_of_union, !elem_of_endpoints.
  intros [(e & He & Ha)|(e & He & Ha)]; [left|right]; exists e; split; try done.
  - by eapply grows_has.
  - apply has_transpose. apply has_transpose in He.
    by apply (proj2 (Hg (src e) (label e))).
Qed.

Lemma nodes_node_inv V g : node_inv V g → nodes g ⊆ V.
Proof.
  intros Hinv a. unfold nodes. rewrite !elem_of_union, !elem_of_endpoints.
  intros [(e & He & Ha)|(e & He & Ha)].
  - apply has_iff, Hinv in He. naive_solver.
  - apply has_transpose, Hinv in He. naive_solver.
Qed.

End NodeFacts.

(** X5.  The solver introduces no node: at every point of the run, and at
    its end, the endpoints recorded in the two indices are those of the
    initial graph. *)
Theorem solve_keeps_nodes (order : CFLRWorkList.Order) (g : CFLRGraph.t) :
  (∀ n, nodes (graph (solve_upto order n g)) = nodes g) ∧
  nodes (graph (solve order g)) = nodes g.
Proof.
  assert (∀ n, nodes (graph (solve_upto order n g)) = nodes g) as Hn.
  { intros n. apply set_eq, set_equiv_subseteq. split.
    - apply nodes_node_inv, node_inv_iterate.
    - apply nodes_grows, (frame_inv_iterate order n g). }
  split; [done|apply Hn].
Qed.

(** X6.  The solver keeps the two indices in step: if the forward and
    the reverse index of the initial graph describe the same edges, they
    do so after every iteration of the main loop. *)
Theorem solve_keeps_indices_consistent (order : CFLRWorkList.Order)
    (g : CFLRGraph.t) (n : nat) :
  CFLRGraph.wf g → CFLRGraph.wf (graph (solve_upto order n g)).
Proof. intros Hwf. by apply (loop_inv_iterate order n g). Qed.

Lemma solve_keeps_indices_consistent_witness :
  CFLRGraph.wf (graph (solve_upto CFLRWorkList.LIFO 3 S6_graph)).
Proof.
  apply (solve_keeps_indices_consistent CFLRWorkList.LIFO S6_graph 3).
  apply wf_of_list.
Defined.

(** ** Saturated graphs *)

Lemma Derived_closed (I : CFLREdge → Prop) e :
  grammar_closed I → Derived I e → I e.
Proof.
  intros [Hun Hbin].
  induction 1 as [x Hx|u v _ IH|u v w l1 l2 l3 Hp _ IH1 _ IH2|u v l l' Hi _ IH Hn];
    eauto. done.
Qed.

Lemma solve_closed_fixed (order : CFLRWorkList.Order) (g : CFLRGraph.t) :
  CFLRGraph.wf g → grammar_closed (has g) →
  edges (graph (solve order g)) = edges g.
Proof.
  intros Hwf Hcl. apply set_eq. intros x.
  rewrite !elem_of_edges, solve_Derived by done. split.
  - by apply Derived_closed.
  - by constructor.
Qed.

Lemma wf_solve (order : CFLRWorkList.Order) (g : CFLRGraph.t) :
  CFLRGraph.wf g → CFLRGraph.wf (graph (solve order g)).
Proof. intros Hwf. by apply (loop_inv_iterate order (universe_size g) g). Qed.

(** X7.  On a well-formed graph the solver adds nothing exactly when the
    graph is already closed under the grammar. *)
Theorem solve_fixed_iff_closed (order : CFLRWorkList.Order) (g : CFLRGraph.t) :
  CFLRGraph.wf g →
  (edges (graph (solve order g)) = edges g ↔ grammar_closed (has g)).
Proof.
  intros Hwf. split; [|by apply solve_closed_fixed].
  intros Heq.
  assert (∀ x, has (graph (solve order g)) x ↔ has g x) as Hx.
  { intros x. by rewrite <- !elem_of_edges, Heq. }
  destruct (solve_closed order g Hwf) as [Hun Hbin]. split.
  - intros u v. rewrite <- !Hx. apply Hun.
  - intros u v w l1 l2 l3 Hp. rewrite <- !Hx. by apply Hbin.
Qed.

Lemma solve_fixed_iff_closed_witness :
  edges (graph (solve CFLRWorkList.FIFO S6_graph)) = edges S6_graph
  ↔ grammar_closed (has S6_graph).
Proof. apply (solve_fixed_iff_closed CFLRWorkList.FIFO S6_graph), wf_of_list. Defined.

(** X8.  Solving is idempotent: running the solver, under either
    worklist discipline, on a graph it has saturated adds no edge. *)
Theorem solve_idempotent (o1 o2 : CFLRWorkList.Order) (g : CFLRGraph.t) :
  CFLRGraph.wf g →
  edges (graph (solve o2 (graph (solve o1 g)))) = edges (graph (solve o1 g)).
Proof.
  intros Hwf. apply solve_closed_fixed; [by apply wf_solve|by apply solve_closed].
Qed.

Lemma solve_idempotent_witness :
  edges (graph (solve CFLRWorkList.LIFO (graph (solve CFLRWorkList.FIFO S6_graph))))
  = edges (graph (solve CFLRWorkList.FIFO S6_graph)).
Proof.
  apply (solve_idempotent CFLRWorkList.FIFO CFLRWorkList.LIFO S6_graph).
  apply wf_of_list.
Defined.

Lemma Derived_mono (g g' : CFLRGraph.t) e :
  (∀ x, has g x → has g' x) → inverse_closed (has g') →
  Derived (has g) e → Derived (has g') e.
Proof.
  intros Hsub Hinv.
  induction 1 as [x Hx|u v _ IH|u v w l1 l2 l3 Hp _ IH1 _ IH2|u v l l' Hi _ IH Hn].
  - apply Derived_init. by apply Hsub.
  - by apply Derived_unary.
  - by eapply Derived_binary.
  - destruct (decide (has g' (mkEdge u v l))) as [H0|H0].
    + apply Derived_init. by eapply Hinv.
    + by eapply Derived_inverse.
Qed.

(** X9.  More initial edges give more derived edges: if a well-formed
    graph [g'] holds every edge of a well-formed graph [g], and every
    initial PT or Copy edge of [g'] comes with its twin, then the
    saturation of [g'] holds every edge of the saturation of [g]. *)
Theorem solve_mono_input (order : CFLRWorkList.Order) (g g' : CFLRGraph.t) :
  CFLRGraph.wf g → CFLRGraph.wf g' →
  edges g ⊆ edges g' → inverse_closed (has g') →
  edges (graph (solve order g)) ⊆ edges (graph (solve order g')).
Proof.
  intros Hwf Hwf' Hsub Hinv x.
  rewrite !elem_of_edges, !solve_Derived by done.
  apply Derived_mono; [|done].
  intros y. rewrite <- !elem_of_edges. apply Hsub.
Qed.

Lemma S6_graph_Addr_twins : inverse_closed (has S6_graph_Addr).
Proof.
  intros u v l l' Hi. unfold S6_graph_Addr. rewrite !has_of_list.
  apply inverse_cases in Hi. rewrite !elem_of_cons, !elem_of_nil.
  naive_solver.
Defined.

Lemma solve_mono_input_witness :
  edges (graph (solve CFLRWorkList.FIFO S6_graph))
  ⊆ edges (graph (solve CFLRWorkList.FIFO S6_graph_Addr)).
Proof.
  apply (solve_mono_input CFLRWorkList.FIFO S6_graph S6_graph_Addr).
  - apply wf_of_list.
  - apply wf_of_list.
  - intros x. rewrite !elem_of_edges. unfold S6_graph, S6_graph_Addr.
    rewrite !has_of_list. intros Hx. by right.
  - apply S6_graph_Addr_twins.
Defined.

(** Without the twins the saturation is not monotone: from AddrBar(0, 1)
    alone the solver derives PTBar(1, 0); when PT(0, 1) is an initial edge
    as well, it finds PT(0, 1) present and inserts no twin. *)
Remark solve_not_mono_without_twins :
  has (graph (solve CFLRWorkList.FIFO
                (CFLRGraph.of_list [mkEdge 0 1 AddrBar]))) (mkEdge 1 0 PTBar) ∧
  ¬ has (graph (solve CFLRWorkList.FIFO
                  (CFLRGraph.of_list [mkEdge 0 1 AddrBar; mkEdge 0 1 PT])))
        (mkEdge 1 0 PTBar).
Proof. split; [by vm_compute|]. intros H. by vm_compute in H. Qed.

(** ** What the derived edges mean *)

(** No edge of the graph carries a label that only the solver derives
    and consumes: PT, PTBar, PV or VP. *)
Definition frontend_only (g : CFLRGraph.t) : Prop :=
  ∀ e, has g e →
       label e ≠ PT ∧ label e ≠ PTBar ∧ label e ≠ PV ∧ label e ≠ VP.

(** A graph in which no address is taken. *)
Definition no_address_graph : CFLRGraph.t :=
  CFLRGraph.of_list
    [mkEdge 0 1 Copy; mkEdge 1 0 CopyBar; mkEdge 0 1 Store; mkEdge 1 2 Load].

Section Meaning.

Variable I : CFLREdge → Prop.

Lemma Derived_inv e :
  Derived I e →
  I e ∨
  (label e = PT ∧ Derived I (mkEdge (src e) (dst e) AddrBar)) ∨
  (∃ v l1 l2, production l1 l2 = Some (label e) ∧
     Derived I (mkEdge (src e) v l1) ∧ Derived I (mkEdge v (dst e) l2)) ∨
  (∃ l, inverse l = Some (label e) ∧
     Derived I (mkEdge (dst e) (src e) l) ∧ ¬ I (mkEdge (dst e) (src e) l)).
Proof. destruct 1; simpl; eauto 10. Qed.

Lemma Derived_terminal e : Derived I e → terminal (label e) → I e.
Proof.
  intros [?|[[HPT _]|[(v & l1 & l2 & Hp & _)|(l & Hi & _)]]]%Derived_inv Ht;
    [done|exfalso..]; unfold terminal in Ht.
  - label_clash.
  - apply production_cases in Hp. label_clash.
  - apply inverse_cases in Hi. label_clash.
Qed.

Lemma Derived_PT_inv u o :
  Derived I (mkEdge u o PT) →
  I (mkEdge u o PT) ∨ I (mkEdge u o AddrBar) ∨
  ∃ v, Derived I (mkEdge u v CopyBar) ∧ Derived I (mkEdge v o PT).
Proof.
  intros [?|[[_ HA]|[(v & l1 & l2 & Hp & H1 & H2)|(l & Hi & _)]]]%Derived_inv;
    simpl in *.
  - by left.
  - right; left. apply (Derived_terminal _ HA). unfold terminal. simpl. tauto.
  - right; right. exists v.
    apply production_cases in Hp as [(-> & -> & _)|[(_ & _ & ?)|[(_ & _ & ?)|(_ & _ & ?)]]];
      done.
  - apply inverse_cases in Hi. label_clash.
Qed.

Lemma Derived_PTBar_inv o q :
  Derived I (mkEdge o q PTBar) →
  I (mkEdge o q PTBar) ∨ Derived I (mkEdge q o PT).
Proof.
  intros [?|[[HPT _]|[(v & l1 & l2 & Hp & _)|(l & Hi & H1 & _)]]]%Derived_inv;
    simpl in *; [by left|done| |].
  - apply production_cases in Hp. label_clash.
  - right. apply inverse_cases in Hi as [[-> _]|[_ ?]]; done.
Qed.

Lemma Derived_CopyBar_inv u v :
  Derived I (mkEdge u v CopyBar) →
  I (mkEdge u v CopyBar) ∨ Derived I (mkEdge v u Copy).
Proof.
  intros [?|[[HPT _]|[(w & l1 & l2 & Hp & _)|(l & Hi & H1 & _)]]]%Derived_inv;
    simpl in *; [by left|done| |].
  - apply production_cases in Hp. label_clash.
  - right. apply inverse_cases in Hi as [[_ ?]|[-> _]]; done.
Qed.

Lemma Derived_PV_inv u o :
  Derived I (mkEdge u o PV) →
  I (mkEdge u o PV) ∨
  ∃ p, I (mkEdge u p Store) ∧ Derived I (mkEdge p o PT).
Proof.
  intros [?|[[HPT _]|[(p & l1 & l2 & Hp & H1 & H2)|(l & Hi & _)]]]%Derived_inv;
    simpl in *; [by left|done| |].
  - right. exists p.
    apply production_cases in Hp as [(_ & _ & ?)|[(-> & -> & _)|[(_ & _ & ?)|(_ & _ & ?)]]];
      try done.
    split; [|done]. apply (Derived_terminal _ H1). unfold terminal. simpl. tauto.
  - apply inverse_cases in Hi. label_clash.
Qed.

Lemma Derived_VP_inv o w :
  Derived I (mkEdge o w VP) →
  I (mkEdge o w VP) ∨
  ∃ q, Derived I (mkEdge o q PTBar) ∧ I (mkEdge q w Load).
Proof.
  intros [?|[[HPT _]|[(q & l1 & l2 & Hp & H1 & H2)|(l & Hi & _)]]]%Derived_inv;
    simpl in *; [by left|done| |].
  - right. exists q.
    apply production_cases in Hp as [(_ & _ & ?)|[(_ & _ & ?)|[(-> & -> & _)|(_ & _ & ?)]]];
      try done.
    split; [done|]. apply (Derived_terminal _ H2). unfold terminal. simpl. tauto.
  - apply inverse_cases in Hi. label_clash.
Qed.

Lemma Derived_Copy_inv u w :
  Derived I (mkEdge u w Copy) →
  I (mkEdge u w Copy) ∨
  ∃ o, Derived I (mkEdge u o PV) ∧ Derived I (mkEdge o w VP).
Proof.
  intros [?|[[HPT _]|[(o & l1 & l2 & Hp & H1 & H2)|(l & Hi & _)]]]%Derived_inv;
    simpl in *; [by left|done| |].
  - right. exists o.
    apply production_cases in Hp as [(_ & _ & ?)|[(_ & _ & ?)|[(_ & _ & ?)|(-> & -> & _)]]];
      done.
  - apply inverse_cases in Hi. label_clash.
Qed.

Lemma Derived_PT_target e :
  Derived I e → label e = PT →
  (∃ p, I (mkEdge p (dst e) AddrBar)) ∨ (∃ a, I (mkEdge a (dst e) PT)).
Proof.
  induction 1 as [x Hx|u v HA _|u v w l1 l2 l3 Hp _ _ _ IH2|u v l l' Hi _ _ _];
    simpl; intros Hl.
  - right. exists (src x). destruct x. simpl in *. by subst.
  - left. exists u. apply (Derived_terminal _ HA). unfold terminal. simpl. tauto.
  - subst l3. apply production_cases in Hp.
    apply IH2. simpl. label_clash.
  - subst l'. apply inverse_cases in Hi. label_clash.
Qed.

End Meaning.

(** X10.  On a well-formed graph every points-to edge of the result
    leads to an object whose address is taken, or to one that an initial
    PT edge already points to: the solver invents no points-to target. *)
Theorem PT_targets_are_address_taken (order : CFLRWorkList.Order)
    (g : CFLRGraph.t) (u o : nat) :
  CFLRGraph.wf g →
  has (graph (solve order g)) (mkEdge u o PT) →
  (∃ p, has g (mkEdge p o AddrBar)) ∨ (∃ a, has g (mkEdge a o PT)).
Proof.
  intros Hwf Hx%solve_Derived; [|done].
  by apply (Derived_PT_target (has g) (mkEdge u o PT)).
Qed.

Lemma PT_targets_are_address_taken_witness :
  (∃ p, has S6_graph (mkEdge p 1 AddrBar)) ∨ (∃ a, has S6_graph (mkEdge a 1 PT)).
Proof.
  apply (PT_targets_are_address_taken CFLRWorkList.FIFO S6_graph 2 1).
  - apply wf_of_list.
  - by vm_compute.
Defined.

(** X11.  On a well-formed graph without initial PT, PTBar, PV or VP
    edges, the result holds Copy(u, w) exactly when it is an initial edge
    or there are a store Store(u, p) and a load Load(q, w) whose pointers
    [p] and [q] point to a common object in the result. *)
Theorem Copy_iff_store_load (order : CFLRWorkList.Order) (g : CFLRGraph.t)
    (u w : nat) :
  CFLRGraph.wf g → frontend_only g →
  (has (graph (solve order g)) (mkEdge u w Copy) ↔
   has g (mkEdge u w Copy) ∨
   ∃ p q o, has g (mkEdge u p Store) ∧
            has (graph (solve order g)) (mkEdge p o PT) ∧
            has (graph (solve order g)) (mkEdge q o PT) ∧
            has g (mkEdge q w Load)).
Proof.
  intros Hwf Hfe. rewrite solve_Derived by done.
  setoid_rewrite (solve_Derived order g _ Hwf).
  split.
  - intros [?|(o & HPV & HVP)]%Derived_Copy_inv; [by left|right].
    apply Derived_PV_inv in HPV as [H0|(p & HS & HPT)];
      [apply Hfe in H0; simpl in H0; tauto|].
    apply Derived_VP_inv in HVP as [H0|(q & HPTBar & HL)];
      [apply Hfe in H0; simpl in H0; tauto|].
    apply Derived_PTBar_inv in HPTBar as [H0|HPT'];
      [apply Hfe in H0; simpl in H0; tauto|].
    by exists p, q, o.
  - intros [H0|(p & q & o & HS & HPT & HPT' & HL)]; [by constructor|].
    apply (Derived_binary _ u o w PV VP); [done| |].
    + apply (Derived_binary _ u p o Store PT); [done|by constructor|done].
    + apply (Derived_binary _ o q w PTBar Load); [done| |by constructor].
      apply (Derived_inverse _ q o PT); [done..|].
      intros H0. apply Hfe in H0. simpl in H0. tauto.
Qed.

Lemma S2_graph_frontend_only : frontend_only S2_graph.
Proof.
  intros e. unfold S2_graph. rewrite has_of_list, !elem_of_cons, elem_of_nil.
  intros [->|[->|[->|[->|[]]]]]; done.
Defined.

Lemma Copy_iff_store_load_witness :
  has (graph (solve CFLRWorkList.FIFO S2_graph)) (mkEdge 3 4 Copy) ↔
  has S2_graph (mkEdge 3 4 Copy) ∨
  ∃ p q o, has S2_graph (mkEdge 3 p Store) ∧
           has (graph (solve CFLRWorkList.FIFO S2_graph)) (mkEdge p o PT) ∧
           has (graph (solve CFLRWorkList.FIFO S2_graph)) (mkEdge q o PT) ∧
           has S2_graph (mkEdge q 4 Load).
Proof.
  apply (Copy_iff_store_load CFLRWorkList.FIFO S2_graph 3 4).
  - apply wf_of_list.
  - apply S2_graph_frontend_only.
Defined.

(** X12.  On a well-formed graph without initial PT edges whose Copy and
    CopyBar edges (and PT and PTBar edges) mirror each other, the result
    holds PT(u, o) exactly when AddrBar(u, o) is an initial edge or some
    [v] with Copy(v, u) in the result has PT(v, o) in the result: a
    pointer points to what it takes the address of and to what the
    pointers copied into it point to. *)
Theorem PT_iff_address_or_copy (order : CFLRWorkList.Order) (g : CFLRGraph.t)
    (u o : nat) :
  CFLRGraph.wf g → symmetric (has g) → (∀ a b, ¬ has g (mkEdge a b PT)) →
  (has (graph (solve order g)) (mkEdge u o PT) ↔
   has g (mkEdge u o AddrBar) ∨
   ∃ v, has (graph (solve order g)) (mkEdge v u Copy) ∧
        has (graph (solve order g)) (mkEdge v o PT)).
Proof.
  intros Hwf Hsym HnoPT.
  destruct (frame_inv_iterate order (universe_size g) g) as (Hg & _ & _ & Hs).
  fold (solve order g) in Hg, Hs. specialize (Hs Hsym).
  destruct (solve_closed order g Hwf) as [Hun Hbin].
  split.
  - intros Hx. pose proof Hx as HD. apply solve_Derived in HD; [|done].
    apply Derived_PT_inv in HD as [H0|[HA|(v & HCB & HPT)]].
    + by apply HnoPT in H0.
    + by left.
    + right. exists v. split.
      * apply (Hs v u Copy CopyBar eq_refl). by apply solve_Derived.
      * by apply solve_Derived.
  - intros [HA|(v & HC & HPT)].
    + apply Hun. by eapply grows_has.
    + apply (Hbin u v o CopyBar PT PT eq_refl); [|done].
      by apply (Hs v u Copy CopyBar eq_refl).
Qed.

Lemma S3_graph_symmetric : symmetric (has S3_graph).
Proof.
  intros u v l l' Hi. unfold S3_graph. rewrite !has_of_list.
  apply inverse_cases in Hi. rewrite !elem_of_cons, !elem_of_nil.
  naive_solver.
Defined.

Lemma S3_graph_no_PT a b : ¬ has S3_graph (mkEdge a b PT).
Proof.
  unfold S3_graph. rewrite has_of_list, !elem_of_cons, elem_of_nil.
  naive_solver.
Defined.

Lemma PT_iff_address_or_copy_witness :
  has (graph (solve CFLRWorkList.FIFO S3_graph)) (mkEdge 2 3 PT) ↔
  has S3_graph (mkEdge 2 3 AddrBar) ∨
  ∃ v, has (graph (solve CFLRWorkList.FIFO S3_graph)) (mkEdge v 2 Copy) ∧
       has (graph (solve CFLRWorkList.FIFO S3_graph)) (mkEdge v 3 PT).
Proof.
  apply (PT_iff_address_or_copy CFLRWorkList.FIFO S3_graph 2 3).
  - apply wf_of_list.
  - apply S3_graph_symmetric.
  - apply S3_graph_no_PT.
Defined.

(** X13.  When a well-formed graph holds no AddrBar, PT, PTBar or PV edge
    (in particular when the program takes no address), the solver adds
    nothing: the result has exactly the initial edges. *)
Theorem solve_without_addresses (order : CFLRWorkList.Order) (g : CFLRGraph.t) :
  CFLRGraph.wf g →
  (∀ e, has g e →
        label e ≠ AddrBar ∧ label e ≠ PT ∧ label e ≠ PTBar ∧ label e ≠ PV) →
  edges (graph (solve order g)) = edges g.
Proof.
  intros Hwf Hl. apply solve_closed_fixed; [done|]. split.
  - intros u v H0%Hl. simpl in H0. tauto.
  - intros u v w l1 l2 l3 Hp H1%Hl H2%Hl. simpl in *.
    apply production_cases in Hp. exfalso. label_clash.
Qed.

Lemma solve_without_addresses_witness :
  edges (graph (solve CFLRWorkList.FIFO no_address_graph))
  = edges no_address_graph.
Proof.
  apply (solve_without_addresses CFLRWorkList.FIFO no_address_graph).
  - apply wf_of_list.
  - intros e. unfold no_address_graph.
    rewrite has_of_list, !elem_of_cons, elem_of_nil.
    intros [->|[->|[->|[->|[]]]]]; done.
Defined.

(** ** The insertion helper as an operation on edge sets *)

(** The twins that go with [c]: at most one edge. *)
Definition twin_set (c : CFLREdge) : gset CFLREdge :=
  match inverse (label c) with
  | Some l' => {[mkEdge (dst c) (src c) l']}
  | None => ∅
  end.

(** What a call of the insertion helper for [c] does to the edge set. *)
Definition inserted (E : gset CFLREdge) (c : CFLREdge) : gset CFLREdge :=
  if decide (c ∈ E) then E else E ∪ {[c]} ∪ twin_set c.

Section InsertionFacts.

Variable order : CFLRWorkList.Order.
Implicit Types (st : CFLR) (E : gset CFLREdge) (c x : CFLREdge).

Lemma edges_addEdge_inserted st u v l :
  edges (graph (addEdge order st u v l))
  = inserted (edges (graph st)) (mkEdge u v l).
Proof.
  unfold inserted, twin_set. simpl.
  destruct (addEdge_cases order st u v l)
    as [[Hin ->]|[(Hnew & Htwin & ->)|(l' & Hnew & Hinv & Hnt & ->)]].
  - rewrite decide_True; [done|]. by apply elem_of_edges.
  - rewrite decide_False by (by rewrite elem_of_edges).
    unfold insert_and_push. cbn [graph]. rewrite edges_addEdge.
    destruct (inverse l) as [l'|] eqn:Hi; [|set_solver].
    specialize (Htwin l' eq_refl). apply elem_of_edges in Htwin. set_solver.
  - rewrite decide_False by (by rewrite elem_of_edges).
    unfold insert_and_push. cbn [graph]. rewrite !edges_addEdge, Hinv.
    set_solver.
Qed.

Lemma twin_set_twin c x : x ∈ twin_set c → twin_set x = ∅ ∧ x ≠ c.
Proof.
  unfold twin_set. destruct (inverse (label c)) as [l'|] eqn:Hi; [|set_solver].
  intros ->%elem_of_singleton. simpl.
  rewrite (inverse_no_inverse _ _ Hi). split; [done|].
  intros Heq. apply (f_equal label) in Heq. simpl in Heq.
  by apply inverse_neq in Hi.
Qed.

Lemma inserted_comm E c1 c2 :
  inserted (inserted E c1) c2 = inserted (inserted E c2) c1.
Proof.
  unfold inserted.
  repeat case_decide; try (exfalso; set_solver); try set_solver.
  - assert (c2 = c1 ∨ c2 ∈ twin_set c1) as [->|Ht2] by set_solver; [done|].
    assert (c1 = c2 ∨ c1 ∈ twin_set c2) as [->|Ht1] by set_solver; [done|].
    apply twin_set_twin in Ht2 as [Hempty _]. rewrite Hempty in Ht1.
    set_solver.
  - assert (c2 ∈ twin_set c1) as Ht2 by set_solver.
    apply twin_set_twin in Ht2 as Hc2. destruct Hc2 as [Hempty _].
    rewrite Hempty. set_solver.
  - assert (c1 ∈ twin_set c2) as Ht1 by set_solver.
    apply twin_set_twin in Ht1 as Hc1. destruct Hc1 as [Hempty _].
    rewrite Hempty. set_solver.
Qed.

Lemma edges_foldl_addEdge (f1 f2 : nat → nat) l (ws : list nat) st :
  edges (graph (foldl (λ st w, addEdge order st (f1 w) (f2 w) l) st ws))
  = foldl (λ E w, inserted E (mkEdge (f1 w) (f2 w) l)) (edges (graph st)) ws.
Proof.
  revert st. induction ws as [|w ws IH]; intros st; simpl; [done|].
  by rewrite IH, edges_addEdge_inserted.
Qed.

Lemma foldl_inserted_perm (f : nat → CFLREdge) (ws ws' : list nat) E :
  ws ≡ₚ ws' →
  foldl (λ E w, inserted E (f w)) E ws = foldl (λ E w, inserted E (f w)) E ws'.
Proof.
  intros Hp. revert E.
  induction Hp as [|w ws ws' _ IH|w1 w2 ws|ws1 ws2 ws3 _ IH1 _ IH2];
    intros E; simpl.
  - done.
  - apply IH.
  - by rewrite inserted_comm.
  - by rewrite IH1.
Qed.

End InsertionFacts.

(** X14.  After a call of the insertion helper the edge is in the graph,
    and a second call for the same edge changes neither the graph nor the
    worklist. *)
Theorem addEdge_idempotent (order : CFLRWorkList.Order) (st : CFLR)
    (u v : nat) (l : EdgeLabel) :
  CFLRGraph.hasEdge (graph (addEdge order st u v l)) u v l = true ∧
  addEdge order (addEdge order st u v l) u v l = addEdge order st u v l.
Proof.
  pose proof (has_addEdge_self order st u v l) as Hin. split; [done|].
  destruct (addEdge_cases order (addEdge order st u v l) u v l)
    as [[_ Heq]|[(Hnew & _)|(l' & Hnew & _)]]; done.
Qed.

(** X15.  The edges that a loop of the body leaves in the graph do not
    depend on the order in which it visits the members of the set: a run
    of the loop over any arrangement of the members ends with the same
    edge set as the loop of the model, and two calls of the insertion
    helper can be swapped. *)
Theorem loop_visit_order_irrelevant (order : CFLRWorkList.Order) (st : CFLR)
    (f1 f2 : nat → nat) (l : EdgeLabel) :
  (∀ (s : gset nat) (ws : list nat), ws ≡ₚ elements s →
     edges (graph (foldl (λ st w, addEdge order st (f1 w) (f2 w) l) st ws))
     = edges (graph (for_each s (λ st w, addEdge order st (f1 w) (f2 w) l) st))) ∧
  (∀ u1 v1 l1 u2 v2 l2,
     edges (graph (addEdge order (addEdge order st u1 v1 l1) u2 v2 l2))
     = edges (graph (addEdge order (addEdge order st u2 v2 l2) u1 v1 l1))).
Proof.
  split.
  - intros s ws Hp. unfold for_each. rewrite !edges_foldl_addEdge.
    by apply (foldl_inserted_perm (λ w, mkEdge (f1 w) (f2 w) l)).
  - intros u1 v1 l1 u2 v2 l2. rewrite !edges_addEdge_inserted.
    apply inserted_comm.
Qed.
